(** * Data-Visualization-Dashboard: the client-side pipeline of [App.jsx]

    The [Dashboard] component fetches the whole dataset once, filters it in
    memory by six facets and derives the chart datasets from the filtered
    subset.  This file embeds that pipeline and states its specification.

    Modelling conventions.
    - A JavaScript string is a [string]; its characters stand for code
      units, compared unit by unit.
    - A facet of a record is an [option string]; [None] is an absent
      field ([undefined] or [null], which the code never tells apart).
    - A numeric score is an [option Q]; [None] is an absent field.  A
      rational stands for the finite number it denotes: [Math.round] is
      exact on it, and the rounding error of floating-point [+] and [/] is
      not represented.
    - An object literal used as an accumulator is the list of its own
      properties in creation order; [Object.entries] lists array-index
      keys first.  A read of a key that the accumulator does not own falls
      through to [Object.prototype], whose members are the standard ones;
      a value it stores is a number or a string. *)

From Stdlib Require Import List Bool Arith ZArith NArith QArith Qround Qabs Lia.
From Stdlib Require Import String Ascii DecimalString.
From Stdlib Require Import Sorted Permutation.
Import ListNotations.

Local Open Scope string_scope.
Local Open Scope list_scope.

(** ** JavaScript primitives used by the component *)

Module JS.

(** [ToBoolean] on a string: only the empty string is falsy. *)
Definition truthy (s : string) : bool := negb (s =? "").

(** [ToBoolean] on a possibly absent string field. *)
Definition truthy_field (v : option string) : bool :=
  match v with
  | Some s => truthy s
  | None => false
  end.

(** [v === s] for a field [v] and a string [s]. *)
Definition strict_eq (v : option string) (s : string) : bool :=
  match v with
  | Some t => (t =? s)
  | None => false
  end.

(** Same-value equality of two possibly absent strings, as [Set] uses it. *)
Definition same_value (v w : option string) : bool :=
  match v, w with
  | Some s, Some t => (s =? t)
  | None, None => true
  | _, _ => false
  end.

(** *** [Array.prototype.sort]

    The sort is stable (ECMAScript 2019), which fixes its result for every
    consistent comparator.  It is written as the insertion sort that lets
    an element pass exactly those it must strictly follow.  For a
    comparator that is not consistent the language leaves the order to the
    implementation; the statements below that speak of an order use
    consistent ones. *)

Section Sort.
Context {A : Type}.
Variable compareFn : A -> A -> Z.

Fixpoint insert (x : A) (l : list A) : list A :=
  match l with
  | [] => [x]
  | y :: l' =>
      if (compareFn x y <=? 0)%Z then x :: y :: l' else y :: insert x l'
  end.

Definition sort (l : list A) : list A := fold_right insert [] l.

End Sort.

(** The comparator [sort()] uses when it is given none: strings are
    ordered by their code units. *)
Definition default_compare (x y : string) : Z :=
  match String.compare x y with
  | Lt => (-1)%Z
  | Eq => 0%Z
  | Gt => 1%Z
  end.

(** *** [new Set(array)] spread back into an array

    The distinct elements, each at the place of its first occurrence. *)

Section SetOf.
Context {A : Type}.
Variable eqb : A -> A -> bool.

Definition set_add (acc : list A) (x : A) : list A :=
  if existsb (eqb x) acc then acc else acc ++ [x].

Definition set_of (l : list A) : list A := fold_left set_add l [].

End SetOf.

(** *** Objects used as accumulators

    [object] lists the own properties in the order of their creation.
    [array_index] tells whether a key is an array index and which. *)

Section Object.
Context {K V : Type}.
Variable key_eqb : K -> K -> bool.
Variable array_index : K -> option N.

Definition object : Type := list (K * V).

Fixpoint get (o : object) (k : K) : option V :=
  match o with
  | [] => None
  | (k', v) :: o' => if key_eqb k' k then Some v else get o' k
  end.

(** [o[k] = v]: an existing property keeps its place, a new one is added
    last. *)
Fixpoint set (o : object) (k : K) (v : V) : object :=
  match o with
  | [] => [(k, v)]
  | (k', v') :: o' =>
      if key_eqb k' k then (k', v) :: o' else (k', v') :: set o' k v
  end.

Definition is_index (p : K * V) : bool :=
  match array_index (fst p) with
  | Some _ => true
  | None => false
  end.

Definition index_of (p : K * V) : Z :=
  match array_index (fst p) with
  | Some n => Z.of_N n
  | None => 0%Z
  end.

(** [Object.entries(o)]: array-index keys in ascending numeric order, then
    the other keys in creation order. *)
Definition entries (o : object) : list (K * V) :=
  sort (fun p q => (index_of p - index_of q)%Z) (filter is_index o)
  ++ filter (fun p => negb (is_index p)) o.

End Object.

(** [x || 0] for a count read from an accumulator. *)
Definition or_zero (v : option nat) : nat :=
  match v with
  | Some n => n
  | None => 0%nat
  end.

(** The value of a decimal digit. *)
Definition digit_value (c : ascii) : option N :=
  let n := N_of_ascii c in
  if ((48 <=? n) && (n <=? 57))%N then Some (n - 48)%N else None.

Fixpoint digits_value (s : string) (acc : N) : option N :=
  match s with
  | EmptyString => Some acc
  | String c s' =>
      match digit_value c with
      | Some d => digits_value s' (10 * acc + d)%N
      | None => None
      end
  end.

(** A string key is an array index when it is the canonical decimal
    numeral of an integer below [2^32 - 1]. *)
Definition array_index_of_string (s : string) : option N :=
  match s with
  | EmptyString => None
  | String c s' =>
      if (c =? "0")%char && negb (s' =? "") then None
      else
        match digits_value s 0%N with
        | Some n => if (n <? 2 ^ 32 - 1)%N then Some n else None
        | None => None
        end
  end.

(** A property key made from an integral number [z] is the numeral
    [ToString(z)].  Distinct integers have distinct numerals, so the
    accumulator of the histogram is keyed by [z] itself; the key is an
    array index when [0 <= z < 2^32 - 1]. *)
Definition array_index_of_number (z : Z) : option N :=
  if ((0 <=? z) && (z <? 2 ^ 32 - 1))%Z then Some (Z.to_N z) else None.

(** [Math.round]: the nearest integer, a tie going to the greater one. *)
Definition Math_round (x : Q) : Z := Qfloor (x + (1 # 2)).

Fixpoint leading_digit_fuel (fuel : nat) (n : Z) : Z :=
  match fuel with
  | O => n
  | S fuel' => if (n <? 10)%Z then n else leading_digit_fuel fuel' (n / 10)%Z
  end.

(** The first decimal digit of a positive integer. *)
Definition leading_digit (n : Z) : Z :=
  leading_digit_fuel (S (Z.to_nat (Z.log2 n))) n.

(** [parseInt(key)] for the key [ToString(z)] of an integral number [z].
    Below [10^21] the key is the decimal numeral of [z] and is read back
    whole.  From [10^21] on the key is in exponent notation
    ([1e+21], [-2.5e+22]) and [parseInt] stops at the first character that
    is not a digit, which leaves the sign and the leading digit.  (The
    digit is taken from the exact decimal expansion of [z].) *)
Definition parseInt_key (z : Z) : Z :=
  if (Z.abs z <? 10 ^ 21)%Z then z
  else (Z.sgn z * leading_digit (Z.abs z))%Z.

(** *** What an accumulator that began as [{}] holds and inherits *)

(** A value stored under a key: a number, or a string. *)
Inductive cell : Type :=
| Count (n : nat)
| Text (s : string).

(** The string that [acc[k]] converts to when [acc] has no own property
    [k] and inherits one from [Object.prototype]: the source text of the
    native function (as V8 prints it), or of the prototype object itself
    for [__proto__]; [None] when nothing is inherited under [k]. *)
Definition inherited_text (k : string) : option string :=
  if (k =? "__proto__") then Some "[object Object]"
  else if (k =? "constructor") then
    Some "function Object() { [native code] }"
  else if
    existsb (String.eqb k)
      ["__defineGetter__"; "__defineSetter__"; "hasOwnProperty";
       "__lookupGetter__"; "__lookupSetter__"; "isPrototypeOf";
       "propertyIsEnumerable"; "toString"; "valueOf"; "toLocaleString"]
  then Some ("function " ++ k ++ "() { [native code] }")%string
  else None.

(** [(acc[k] || 0) + 1]: one more than an own number; an own string or an
    inherited member is truthy, and [+] then appends ["1"] to its text. *)
Definition plus_one (acc : @object string cell) (k : string) : cell :=
  match get String.eqb acc k with
  | Some (Count n) => Count (n + 1)
  | Some (Text s) => if truthy s then Text (s ++ "1")%string else Count 1
  | None =>
      match inherited_text k with
      | Some s => Text (s ++ "1")%string
      | None => Count 1
      end
  end.

(** [acc[k] = v].  [__proto__] is an accessor of [Object.prototype] whose
    setter ignores a value that is not an object, so nothing is stored;
    any other key becomes, or stays, an own property. *)
Definition store (acc : @object string cell) (k : string) (v : cell)
  : @object string cell :=
  if (k =? "__proto__") then acc else set String.eqb acc k v.

(** [ToNumber] of a stored value, [None] for NaN.  A stored string is the
    text of an inherited member followed by 1s, which is not a numeral. *)
Definition to_number (c : cell) : option Z :=
  match c with
  | Count n => Some (Z.of_nat n)
  | Text _ => None
  end.

(** [a - b], [None] for NaN. *)
Definition minus (a b : cell) : option Z :=
  match to_number a, to_number b with
  | Some x, Some y => Some (x - y)%Z
  | _, _ => None
  end.

(** What [sort] makes of the result of its comparator: NaN counts as 0. *)
Definition compared (v : option Z) : Z :=
  match v with
  | Some z => z
  | None => 0%Z
  end.

(** *** Numbers that a division can produce *)

Inductive number : Type :=
| NaN
| Infinity (negative : bool)
| Finite (x : Q).

(** [a / b] for finite [a] and [b]. *)
Definition div (a b : Q) : number :=
  if Qeq_bool b 0 then
    if Qeq_bool a 0 then NaN else Infinity (negb (Qle_bool 0 a))
  else Finite (a / b).

Definition numeral (n : Z) : string :=
  NilZero.string_of_uint (N.to_uint (Z.to_N n)).

(** [x.toFixed(1)].  A number that is not finite is shown by its name;
    a finite one as its sign, the integer part and one decimal, the tenths
    rounded to nearest with a tie going up in magnitude.  (From [10^21]
    on [toFixed] switches to exponent notation, which is left out.) *)
Definition toFixed1 (x : number) : string :=
  match x with
  | NaN => "NaN"
  | Infinity false => "Infinity"
  | Infinity true => "-Infinity"
  | Finite q =>
      let n := Qfloor (Qabs q * 10 + (1 # 2)) in
      (if Qle_bool 0 q then "" else "-")
      ++ numeral (n / 10) ++ "." ++ numeral (n mod 10)
  end.

End JS.

(** ** Records and filter state *)

Module Item.
(** One entry of the dataset, as [GET /api/data] delivers it. *)
Record t : Type := mk {
  topic : option string;
  sector : option string;
  region : option string;
  pestle : option string;
  source : option string;
  country : option string;
  intensity : option Q;
  likelihood : option Q;
  relevance : option Q
}.
End Item.

Module Filters.
(** The [filters] state: one selected value per facet, [""] when unset. *)
Record t : Type := mk {
  topic : string;
  sector : string;
  region : string;
  pestle : string;
  source : string;
  country : string
}.

(** The initial state given to [useState]. *)
Definition initial : t := mk "" "" "" "" "" "".
End Filters.

Inductive facet : Type := Topic | Sector | Region | Pestle | Source | Country.

Definition item_facet (k : facet) (item : Item.t) : option string :=
  match k with
  | Topic => Item.topic item
  | Sector => Item.sector item
  | Region => Item.region item
  | Pestle => Item.pestle item
  | Source => Item.source item
  | Country => Item.country item
  end.

Definition selected (k : facet) (filters : Filters.t) : string :=
  match k with
  | Topic => Filters.topic filters
  | Sector => Filters.sector filters
  | Region => Filters.region filters
  | Pestle => Filters.pestle filters
  | Source => Filters.source filters
  | Country => Filters.country filters
  end.

(** ** The filter evaluator ([filteredData]) *)

(** The callback handed to [data.filter]. *)
Definition matches (filters : Filters.t) (item : Item.t) : bool :=
  let topicMatch :=
    negb (JS.truthy (Filters.topic filters))
    || (JS.truthy_field (Item.topic item)
        && JS.strict_eq (Item.topic item) (Filters.topic filters)) in
  let sectorMatch :=
    negb (JS.truthy (Filters.sector filters))
    || (JS.truthy_field (Item.sector item)
        && JS.strict_eq (Item.sector item) (Filters.sector filters)) in
  let regionMatch :=
    negb (JS.truthy (Filters.region filters))
    || (JS.truthy_field (Item.region item)
        && JS.strict_eq (Item.region item) (Filters.region filters)) in
  let pestleMatch :=
    negb (JS.truthy (Filters.pestle filters))
    || (JS.truthy_field (Item.pestle item)
        && JS.strict_eq (Item.pestle item) (Filters.pestle filters)) in
  let sourceMatch :=
    negb (JS.truthy (Filters.source filters))
    || (JS.truthy_field (Item.source item)
        && JS.strict_eq (Item.source item) (Filters.source filters)) in
  let countryMatch :=
    negb (JS.truthy (Filters.country filters))
    || (JS.truthy_field (Item.country item)
        && JS.strict_eq (Item.country item) (Filters.country filters)) in
  topicMatch && sectorMatch && regionMatch && pestleMatch
  && sourceMatch && countryMatch.

Definition filteredData (data : list Item.t) (filters : Filters.t)
  : list Item.t :=
  if (List.length data =? 0)%nat then [] else filter (matches filters) data.

(** ** Facet option lists ([filterOptions]) *)

Module Options.
Record t : Type := mk {
  topics : list string;
  sectors : list string;
  regions : list string;
  pestles : list string;
  sources : list string;
  countries : list string
}.
End Options.

(** [.filter(Boolean)] on the spread set: the truthy values, which are the
    non-empty strings. *)
Definition filter_Boolean (l : list (option string)) : list string :=
  flat_map
    (fun v =>
       match v with
       | Some s => if JS.truthy s then [s] else []
       | None => []
       end)
    l.

(** [[...new Set(data.map(pick))].filter(Boolean).sort()] *)
Definition options_of (pick : Item.t -> option string) (data : list Item.t)
  : list string :=
  JS.sort JS.default_compare
    (filter_Boolean (JS.set_of JS.same_value (map pick data))).

Definition filterOptions (data : list Item.t) : Options.t :=
  {| Options.topics := options_of Item.topic data;
     Options.sectors := options_of Item.sector data;
     Options.regions := options_of Item.region data;
     Options.pestles := options_of Item.pestle data;
     Options.sources := options_of Item.source data;
     Options.countries := options_of Item.country data |}.

Definition facet_options (k : facet) (o : Options.t) : list string :=
  match k with
  | Topic => Options.topics o
  | Sector => Options.sectors o
  | Region => Options.regions o
  | Pestle => Options.pestles o
  | Source => Options.sources o
  | Country => Options.countries o
  end.

(** ** The aggregation pipeline ([aggregatedData]) *)

Module IntensityRow.
Record t : Type := mk { intensity : Z; count : nat }.
End IntensityRow.

Module RegionRow.
Record t : Type := mk { name : string; value : JS.cell }.
End RegionRow.

Module TopicRow.
Record t : Type := mk { topic : string; count : JS.cell }.
End TopicRow.

Module Aggregated.
Record t : Type := mk {
  byIntensity : list IntensityRow.t;
  byRegion : list RegionRow.t;
  byTopic : list TopicRow.t
}.
End Aggregated.

(** The accumulators of the three [reduce] calls. *)

Definition intensity_counts (filteredData : list Item.t) : @JS.object Z nat :=
  fold_left
    (fun (acc : @JS.object Z nat) item =>
       match Item.intensity item with
       | Some x =>
           let intensity := JS.Math_round x in
           JS.set Z.eqb acc intensity
             (JS.or_zero (JS.get Z.eqb acc intensity) + 1)%nat
       | None => acc
       end)
    filteredData [].

Definition facet_counts (pick : Item.t -> option string)
  (filteredData : list Item.t) : @JS.object string JS.cell :=
  fold_left
    (fun (acc : @JS.object string JS.cell) item =>
       match pick item with
       | Some key =>
           if JS.truthy key then JS.store acc key (JS.plus_one acc key)
           else acc
       | None => acc
       end)
    filteredData [].

Definition aggregatedData (filteredData : list Item.t) : Aggregated.t :=
  let byIntensity := intensity_counts filteredData in
  let byRegion :=
    firstn 10
      (JS.sort
         (fun a b =>
            JS.compared (JS.minus (RegionRow.value b) (RegionRow.value a)))
         (map (fun '(name, value) => RegionRow.mk name value)
            (JS.entries JS.array_index_of_string
               (facet_counts Item.region filteredData)))) in
  let byTopic :=
    firstn 10
      (JS.sort
         (fun a b =>
            JS.compared (JS.minus (TopicRow.count b) (TopicRow.count a)))
         (map (fun '(topic, count) => TopicRow.mk topic count)
            (JS.entries JS.array_index_of_string
               (facet_counts Item.topic filteredData)))) in
  {| Aggregated.byIntensity :=
       JS.sort
         (fun a b =>
            (IntensityRow.intensity a - IntensityRow.intensity b)%Z)
         (map
            (fun '(intensity, count) =>
               IntensityRow.mk (JS.parseInt_key intensity) count)
            (JS.entries JS.array_index_of_number byIntensity));
     Aggregated.byRegion :=
       match byRegion with
       | [] => [RegionRow.mk "No Data" (JS.Count 0)]
       | _ :: _ => byRegion
       end;
     Aggregated.byTopic :=
       match byTopic with
       | [] => [TopicRow.mk "No Data" (JS.Count 0)]
       | _ :: _ => byTopic
       end |}.

(** ** Summary statistics *)

(** [score || 0]: an absent score and a zero score both give [0]. *)
Definition score_or_zero (v : option Q) : Q :=
  match v with
  | Some x => if Qeq_bool x 0 then 0 else x
  | None => 0
  end.

(** [filteredData.reduce((acc, item) => acc + (score || 0), 0)
     / filteredData.length] *)
Definition average (score : Item.t -> option Q) (filteredData : list Item.t)
  : JS.number :=
  JS.div
    (fold_left (fun acc item => acc + score_or_zero (score item))
       filteredData 0)
    (inject_Z (Z.of_nat (List.length filteredData))).

Definition averageIntensity : list Item.t -> JS.number :=
  average Item.intensity.
Definition averageRelevance : list Item.t -> JS.number :=
  average Item.relevance.
Definition averageLikelihood : list Item.t -> JS.number :=
  average Item.likelihood.

(** The text the summary card shows for a mean. *)
Definition shown (mean : JS.number) : string := JS.toFixed1 mean.

(** ** Everything a render derives from the state *)

Module View.
Record t : Type := mk {
  filterOptions : Options.t;
  filteredData : list Item.t;
  aggregatedData : Aggregated.t;
  scatter : list Item.t
}.
End View.

Definition render (data : list Item.t) (filters : Filters.t) : View.t :=
  let fd := filteredData data filters in
  {| View.filterOptions := filterOptions data;
     View.filteredData := fd;
     View.aggregatedData := aggregatedData fd;
     View.scatter := fd |}.

(** ** Loading the dataset ([fetchData]) *)

Module Fetch.

(** What the [/api/data] route sends as JSON: the array of documents, or
    the text ['Error: ' + err] with status 400. *)
Inductive payload : Type :=
| Rows (items : list Item.t)
| Text (message : string).

(** A response: its status and what [response.json()] resolves to, [None]
    when the body is not JSON and [response.json()] rejects. *)
Record response : Type := mkResponse {
  status : nat;
  json : option payload
}.

(** How [fetch] settles: it rejects on a network error and resolves with
    the response otherwise, whatever the status. *)
Inductive outcome : Type :=
| Rejected
| Resolved (r : response).

(** The route of the server: [Data.find()] resolves with the documents or
    rejects with an error. *)
Definition route (found : list Item.t + string) : response :=
  match found with
  | inl documents => mkResponse 200 (Some (Rows documents))
  | inr err => mkResponse 400 (Some (Text ("Error: " ++ err)))
  end.

(** The state of the component that loading touches, and the number of
    requests issued so far. *)
Record state : Type := mkState {
  data : payload;
  loading : bool;
  error : option string;
  requests : nat
}.

Definition initial : state := mkState (Rows []) true None 0.

Definition setData (d : payload) (st : state) : state :=
  mkState d (loading st) (error st) (requests st).
Definition setLoading (b : bool) (st : state) : state :=
  mkState (data st) b (error st) (requests st).
Definition setError (e : option string) (st : state) : state :=
  mkState (data st) (loading st) e (requests st).
Definition request (st : state) : state :=
  mkState (data st) (loading st) (error st) (S (requests st)).

Definition failure_message : string :=
  "Failed to fetch data. Please try again later.".

(** The [catch] block. *)
Definition on_catch (st : state) : state :=
  setError (Some failure_message) st.

(** One run of [fetchData], given how the request settles. *)
Definition fetchData (o : outcome) (st : state) : state :=
  let st := setLoading true st in
  let st := request st in
  let st :=
    match o with
    | Rejected => on_catch st
    | Resolved response =>
        match json response with
        | Some jsonData => setError None (setData jsonData st)
        | None => on_catch st
        end
    end in
  setLoading false st.

(** The retrieval failed: a network error or a status outside 2xx. *)
Definition failed (o : outcome) : Prop :=
  match o with
  | Rejected => True
  | Resolved r => ~ (200 <= status r < 300)%nat
  end.

End Fetch.

(** ** Changing the filter state *)

(** [setFilters(prev => ({ ...prev, [field]: value }))], as the six
    [onChange] handlers and [handleFilterChange] call it; [field] is always
    one of the six keys of [filters]. *)
Definition set_filter (field : facet) (value : string) (prev : Filters.t)
  : Filters.t :=
  match field with
  | Topic =>
      Filters.mk value (Filters.sector prev) (Filters.region prev)
        (Filters.pestle prev) (Filters.source prev) (Filters.country prev)
  | Sector =>
      Filters.mk (Filters.topic prev) value (Filters.region prev)
        (Filters.pestle prev) (Filters.source prev) (Filters.country prev)
  | Region =>
      Filters.mk (Filters.topic prev) (Filters.sector prev) value
        (Filters.pestle prev) (Filters.source prev) (Filters.country prev)
  | Pestle =>
      Filters.mk (Filters.topic prev) (Filters.sector prev)
        (Filters.region prev) value (Filters.source prev)
        (Filters.country prev)
  | Source =>
      Filters.mk (Filters.topic prev) (Filters.sector prev)
        (Filters.region prev) (Filters.pestle prev) value
        (Filters.country prev)
  | Country =>
      Filters.mk (Filters.topic prev) (Filters.sector prev)
        (Filters.region prev) (Filters.pestle prev) (Filters.source prev)
        value
  end.

Module Charts.
(** The [chartsLoading] state: one flag per chart. *)
Record t : Type := mk {
  intensity : bool;
  region : bool;
  likelihood : bool;
  topic : bool
}.
End Charts.

Module Ui.
(** The part of the component state that a filter change touches. *)
Record t : Type := mk {
  filters : Filters.t;
  chartsLoading : Charts.t
}.

(** The initial values given to [useState]. *)
Definition initial : t := mk Filters.initial (Charts.mk true true true true).
End Ui.

(** [handleFilterChange(field, value)], up to the timer it starts. *)
Definition handleFilterChange (field : facet) (value : string) (ui : Ui.t)
  : Ui.t :=
  Ui.mk (set_filter field value (Ui.filters ui))
    (Charts.mk true true true true).

(** The callback that the timer of [handleFilterChange] runs. *)
Definition charts_ready (ui : Ui.t) : Ui.t :=
  Ui.mk (Ui.filters ui) (Charts.mk false false false false).

(** ** The "Active Filters" card *)

(** [Object.entries(filters)]: the six keys in the order of the state
    literal, which the spread in [set_filter] keeps. *)
Definition filter_entries (filters : Filters.t) : list (facet * string) :=
  [(Topic, Filters.topic filters); (Sector, Filters.sector filters);
   (Region, Filters.region filters); (Pestle, Filters.pestle filters);
   (Source, Filters.source filters); (Country, Filters.country filters)].

(** The chips: [null] for a key without a selection, otherwise the chip
    that shows the key and the value and whose button calls
    [handleFilterChange(key, '')]. *)
Definition active_chips (filters : Filters.t) : list (option (facet * string)) :=
  map (fun '(key, value) => if JS.truthy value then Some (key, value) else None)
    (filter_entries filters).

(** [!Object.values(filters).some(Boolean)]: whether the text
    "No active filters" is shown. *)
Definition no_active_filters (filters : Filters.t) : bool :=
  negb (existsb JS.truthy (map snd (filter_entries filters))).

(** ** The colours of the pie slices *)

Definition COLORS : list string :=
  ["#2563eb"; "#16a34a"; "#ea580c"; "#7c3aed"; "#be123c";
   "#0891b2"; "#0f766e"; "#b45309"; "#4f46e5"; "#be185d"].

(** [rows.map((entry, index) => COLORS[index % COLORS.length])]: the fill
    of each cell, [None] where the array has no element. *)
Definition cell_fills {A : Type} (rows : list A) : list (option string) :=
  map (fun index => nth_error COLORS (index mod List.length COLORS))
    (seq 0 (List.length rows)).

(** ** The origin check of the server *)

Module Cors.

(** [value || fallback] for an environment variable, which is a string or
    undefined. *)
Definition or_default (value : option string) (fallback : string) : string :=
  match value with
  | Some s => if JS.truthy s then s else fallback
  | None => fallback
  end.

Definition reactAppApiUrl (env : option string) : string :=
  or_default env "https://dataviztop.netlify.app".

Definition allowedOrigins (env : option string) : list string :=
  [reactAppApiUrl env; "http://localhost:5174"].

Fixpoint indexOf_from (l : list string) (x : string) (i : Z) : Z :=
  match l with
  | [] => (-1)%Z
  | y :: l' => if (y =? x) then i else indexOf_from l' x (i + 1)%Z
  end.

(** [l.indexOf(x)] on an array of strings; an undefined [x] is not found. *)
Definition indexOf (l : list string) (x : option string) : Z :=
  match x with
  | Some s => indexOf_from l s 0%Z
  | None => (-1)%Z
  end.

(** What the [origin] function hands to its callback. *)
Inductive verdict : Type :=
| Allowed
| Refused (message : string).

(** The [origin] function of [corsOptions]; [origin] is the Origin header
    of the request, undefined when the request has none. *)
Definition origin (env : option string) (origin : option string) : verdict :=
  if negb (indexOf (allowedOrigins env) origin =? -1)%Z
     || negb (JS.truthy_field origin)
  then Allowed
  else Refused "Not allowed by CORS".

End Cors.

(** ** Vocabulary of the specification *)

(** The order-preserving subsequence relation on lists. *)
Inductive subseq {A : Type} : list A -> list A -> Prop :=
| subseq_nil : subseq [] []
| subseq_skip x l1 l2 : subseq l1 l2 -> subseq l1 (x :: l2)
| subseq_keep x l1 l2 : subseq l1 l2 -> subseq (x :: l1) (x :: l2).

(** [before x y l]: some occurrence of [x] in [l] comes before some
    occurrence of [y]. *)
Inductive before {A : Type} (x y : A) : list A -> Prop :=
| before_here l : In y l -> before x y (x :: l)
| before_later z l : before x y l -> before x y (z :: l).

(** The position of the first element that satisfies [p]. *)
Fixpoint first_index {A : Type} (p : A -> bool) (l : list A) : option nat :=
  match l with
  | [] => None
  | x :: l' => if p x then Some 0%nat else option_map S (first_index p l')
  end.

(** What one facet contributes to a match, in the words of the
    specification: the selection is unset, or the field is present and
    equal to it. *)
Definition facet_ok (k : facet) (filters : Filters.t) (item : Item.t) : Prop :=
  selected k filters = "" \/ item_facet k item = Some (selected k filters).

Definition string_lt (s t : string) : Prop := String.compare s t = Lt.

(** Rounding to the nearest integer with a tie going away from zero. *)
Definition round_half_away_from_zero (x : Q) : Z :=
  if Qle_bool 0 x then Qfloor (x + (1 # 2)) else Qceiling (x - (1 # 2)).

(** The record has an intensity and [round] sends it to bucket [b]. *)
Definition rounds_into (round : Q -> Z) (b : Z) (item : Item.t) : bool :=
  match Item.intensity item with
  | Some x => (round x =? b)%Z
  | None => false
  end.

Definition occurrences (round : Q -> Z) (b : Z) (fs : list Item.t) : nat :=
  List.length (filter (rounds_into round b) fs).

(** [rows] is the histogram of [fs] under [round]: ascending by bucket,
    and holding exactly the buckets that occur, each with the number of
    records with a present intensity that round into it. *)
Definition histogram_of (round : Q -> Z) (fs : list Item.t)
  (rows : list IntensityRow.t) : Prop :=
  StronglySorted Z.le (map IntensityRow.intensity rows)
  /\ forall b c,
      In (IntensityRow.mk b c) rows <->
      c = occurrences round b fs /\ (0 < c)%nat.

(** Every present intensity rounds to an integer that [ToString] writes
    as a plain decimal numeral. *)
Definition plain_numerals (fs : list Item.t) : Prop :=
  forall item x,
    In item fs -> Item.intensity item = Some x ->
    (Z.abs (JS.Math_round x) < 10 ^ 21)%Z.

Definition has_intensity (item : Item.t) : bool :=
  match Item.intensity item with
  | Some _ => true
  | None => false
  end.

Definition total_count (rows : list IntensityRow.t) : nat :=
  list_sum (map IntensityRow.count rows).

(** A score as the mean counts it: an absent score counts as [0]. *)
Definition contribution (v : option Q) : Q :=
  match v with
  | Some x => x
  | None => 0
  end.

Definition total (score : Item.t -> option Q) (fs : list Item.t) : Q :=
  fold_right (fun item s => contribution (score item) + s) 0 fs.

(** [m] is the mean of [score] over [fs] as specified: the total over the
    number of records, and not a number when there is no record. *)
Definition mean_of (score : Item.t -> option Q) (fs : list Item.t)
  (m : JS.number) : Prop :=
  match fs with
  | [] => m = JS.NaN
  | _ :: _ =>
      exists q, m = JS.Finite q
                /\ q == total score fs / inject_Z (Z.of_nat (List.length fs))
  end.

(** The group [k1] is first met in [fs] before the group [k2] is. *)
Definition seen_before (pick : Item.t -> option string) (k1 k2 : string)
  (fs : list Item.t) : Prop :=
  exists i j,
    first_index (fun item => JS.strict_eq (pick item) k1) fs = Some i
    /\ first_index (fun item => JS.strict_eq (pick item) k2) fs = Some j
    /\ (i < j)%nat.

(** Rows with equal counts stand in the order in which their groups were
    first met. *)
Definition ties_in_first_seen_order {R C : Type} (key : R -> string)
  (cnt : R -> C) (pick : Item.t -> option string) (fs : list Item.t)
  (rows : list R) : Prop :=
  forall r1 r2,
    before r1 r2 rows -> cnt r1 = cnt r2 ->
    seen_before pick (key r1) (key r2) fs.

(** No group key of [fs] is an array index. *)
Definition no_index_keys (pick : Item.t -> option string)
  (fs : list Item.t) : Prop :=
  forall item key,
    In item fs -> pick item = Some key ->
    JS.array_index_of_string key = None.

(** The rows stand in non-increasing order of their counts. *)
Definition nonincreasing {R : Type} (cnt : R -> nat) (rows : list R) : Prop :=
  StronglySorted (fun a b => (cnt b <= cnt a)%nat) rows.

(** No group key of [fs] names a member of [Object.prototype]. *)
Definition no_inherited_keys (pick : Item.t -> option string)
  (fs : list Item.t) : Prop :=
  forall item key,
    In item fs -> pick item = Some key -> JS.inherited_text key = None.

(** The counts of the rows are numbers, the numbers [ns]. *)
Definition counts_are {R : Type} (cnt : R -> JS.cell) (rows : list R)
  (ns : list nat) : Prop :=
  map cnt rows = map JS.Count ns.

(** The counts of the rows are numbers in non-increasing order. *)
Definition counts_nonincreasing {R : Type} (cnt : R -> JS.cell)
  (rows : list R) : Prop :=
  exists ns, counts_are cnt rows ns /\ nonincreasing (fun n => n) ns.

(** The number of records of [fs] whose field [pick] is the string [k]. *)
Definition group_size (pick : Item.t -> option string) (k : string)
  (fs : list Item.t) : nat :=
  List.length (filter (fun item => JS.strict_eq (pick item) k) fs).

(** The record adds nothing to the grouping by [pick]: the field is absent
    or empty. *)
Definition ungrouped (pick : Item.t -> option string) (item : Item.t) : Prop :=
  pick item = None \/ pick item = Some "".

(** The record leaves no trace in the grouping by [pick]: the field is
    absent or empty, or it is [__proto__]. *)
Definition uncounted (pick : Item.t -> option string) (item : Item.t) : Prop :=
  ungrouped pick item \/ pick item = Some "__proto__".

(** The digit 1, [n] times. *)
Fixpoint ones (n : nat) : string :=
  match n with
  | O => ""
  | S m => String "1" (ones m)
  end.

(** What a row shows for a key with [n] records: the number [n], or, for
    a key that names a member of [Object.prototype], the text of that
    member followed by [n] digits 1. *)
Definition group_value (key : string) (n : nat) : JS.cell :=
  match JS.inherited_text key with
  | None => JS.Count n
  | Some s => JS.Text (s ++ ones n)
  end.

(** ** Sample records *)

(** A record with nothing but the given topic, region and intensity. *)
Definition sample (topic region : option string) (intensity : option Q)
  : Item.t :=
  Item.mk topic None region None None None intensity None None.

(** The dataset of the specification's scenarios. *)
Definition africa_asia : list Item.t :=
  [sample None (Some "Africa") (Some 3);
   sample None (Some "Africa") (Some 3);
   sample None (Some "Asia") (Some 1)].

(** Two regions and two topics with two records each, met in turn. *)
Definition tied_groups : list Item.t :=
  [sample (Some "oil") (Some "Asia") None;
   sample (Some "gas") (Some "Africa") None;
   sample (Some "oil") (Some "Africa") None;
   sample (Some "gas") (Some "Asia") None;
   sample None (Some "Europe") None].

(** A topic named like a member of [Object.prototype], then another topic
    with two records. *)
Definition inherited_topic : list Item.t :=
  [sample (Some "constructor") None None;
   sample (Some "oil") None None;
   sample (Some "oil") None None].

(** Intensities on and off the half, of both signs, and an absent one. *)
Definition mixed_scores : list Item.t :=
  [sample None None (Some 3);
   sample None None (Some (7 # 2));
   sample None None None;
   sample None None (Some (-5 # 2));
   sample None None (Some (5 # 4))].

(** Eleven groups, each both a topic and a region; the last one with two
    records. *)
Definition eleven_groups : list Item.t :=
  map (fun g => sample (Some g) (Some g) None)
    ["a"; "b"; "c"; "d"; "e"; "f"; "g"; "h"; "i"; "j"; "k"; "k"].

(** ** Auxiliary notions for the proofs *)

(** The key a record adds to an accumulator, if any. *)
Definition facet_key (pick : Item.t -> option string) (item : Item.t)
  : option string :=
  match pick item with
  | Some key => if JS.truthy key then Some key else None
  | None => None
  end.

Definition intensity_key (item : Item.t) : option Z :=
  option_map JS.Math_round (Item.intensity item).

(** A key with its number of records, as an accumulator stores it. *)
Definition counted (p : string * nat) : string * JS.cell :=
  (fst p, JS.Count (snd p)).

Definition region_row (p : string * nat) : RegionRow.t :=
  RegionRow.mk (fst p) (JS.Count (snd p)).

Definition topic_row (p : string * nat) : TopicRow.t :=
  TopicRow.mk (fst p) (JS.Count (snd p)).

(** The number in a cell that holds one. *)
Definition count_of (c : JS.cell) : nat :=
  match c with
  | JS.Count n => n
  | JS.Text _ => 0%nat
  end.

Section Tally.
Context {T K : Type}.
Variable key_eqb : K -> K -> bool.
Variable keyof : T -> option K.

(** [acc[k] = (acc[k] || 0) + 1] *)
Definition bump (acc : @JS.object K nat) (k : K) : @JS.object K nat :=
  JS.set key_eqb acc k (JS.or_zero (JS.get key_eqb acc k) + 1)%nat.

Definition tally_step (acc : @JS.object K nat) (x : T) : @JS.object K nat :=
  match keyof x with
  | Some k => bump acc k
  | None => acc
  end.

Definition tally (l : list T) : @JS.object K nat :=
  fold_left tally_step l [].

Definition hit (k : K) (x : T) : bool :=
  match keyof x with
  | Some k' => key_eqb k' k
  | None => false
  end.

Definition hits (k : K) (l : list T) : nat := List.length (filter (hit k) l).

Definition keyed (x : T) : bool :=
  match keyof x with
  | Some _ => true
  | None => false
  end.

End Tally.

(** The sorted rows of a grouping made from the plain tally of its keys,
    and what is shown of them. *)
Definition plain_rows {R : Type} (row : string * nat -> R)
  (val : R -> JS.cell) (pick : Item.t -> option string) (fs : list Item.t)
  : list R :=
  JS.sort
    (fun a b => (Z.of_nat (count_of (val b)) - Z.of_nat (count_of (val a)))%Z)
    (map row
       (JS.entries JS.array_index_of_string
          (tally String.eqb (facet_key pick) fs))).

Definition shown_rows {R : Type} (row : string * nat -> R)
  (val : R -> JS.cell) (ph : R) (pick : Item.t -> option string)
  (fs : list Item.t) : list R :=
  match firstn 10 (plain_rows row val pick fs) with
  | [] => [ph]
  | _ :: _ => firstn 10 (plain_rows row val pick fs)
  end.

(** * Properties *)

(** Settles a statement about every member of a literal list of samples:
    [Hin] says that the record is in the list, [E] names one of its
    fields. *)
Ltac each_sample Hin E :=
  simpl in Hin;
  repeat (destruct Hin as [<- | Hin];
          [simpl in E; try discriminate; injection E as <-; reflexivity |]);
  destruct Hin.

(** ** Truthiness and strict equality *)

Lemma truthy_true (s : string) : JS.truthy s = true <-> s <> "".
Proof.
  unfold JS.truthy. rewrite negb_true_iff. apply String.eqb_neq.
Qed.

Lemma truthy_false (s : string) : JS.truthy s = false <-> s = "".
Proof.
  unfold JS.truthy. rewrite negb_false_iff. apply String.eqb_eq.
Qed.

Lemma strict_eq_true (v : option string) (s : string) :
  JS.strict_eq v s = true <-> v = Some s.
Proof.
  destruct v as [t|]; simpl.
  - rewrite String.eqb_eq. split; congruence.
  - split; discriminate.
Qed.

(** ** Lists: subsequences, positions, relative order *)

Lemma filter_subseq {A : Type} (p : A -> bool) (l : list A) :
  subseq (filter p l) l.
Proof.
  induction l as [| x l IH]; simpl.
  - constructor.
  - destruct (p x); now constructor.
Qed.

Lemma subseq_In {A : Type} (l1 l2 : list A) :
  subseq l1 l2 -> forall x, In x l1 -> In x l2.
Proof.
  induction 1; simpl; intuition.
Qed.

Lemma subseq_length {A : Type} (l1 l2 : list A) :
  subseq l1 l2 -> (List.length l1 <= List.length l2)%nat.
Proof.
  induction 1; simpl; lia.
Qed.

Lemma filter_idem {A : Type} (p : A -> bool) (l : list A) :
  filter p (filter p l) = filter p l.
Proof.
  induction l as [| x l IH]; simpl; auto.
  destruct (p x) eqn:E; simpl; rewrite ?E, IH; auto.
Qed.

Lemma before_In {A : Type} (x y : A) (l : list A) :
  before x y l -> In x l /\ In y l.
Proof.
  induction 1 as [l H | z l H [IH1 IH2]]; simpl; auto.
Qed.

Lemma before_app_l {A : Type} (x y : A) (l l' : list A) :
  before x y l -> before x y (l ++ l').
Proof.
  induction 1; simpl.
  - constructor. apply in_or_app. now left.
  - now constructor.
Qed.

Lemma before_app_r {A : Type} (x y : A) (l l' : list A) :
  before x y l' -> before x y (l ++ l').
Proof.
  intros H. induction l; simpl; auto. now constructor.
Qed.

Lemma before_snoc_inv {A : Type} (x y z : A) (l : list A) :
  before x y (l ++ [z]) -> before x y l \/ (In x l /\ y = z).
Proof.
  induction l as [| a l IH]; simpl; intros H.
  - inversion H as [l' Hin | a' l' Hb]; subst.
    + destruct Hin.
    + inversion Hb.
  - inversion H as [l' Hin | a' l' Hb]; subst.
    + apply in_app_or in Hin. destruct Hin as [Hin | [E | []]].
      * left. now constructor.
      * right. auto.
    + destruct (IH Hb) as [H1 | [H1 H2]].
      * left. now constructor.
      * right. auto.
Qed.

Lemma before_firstn {A : Type} (x y : A) (n : nat) (l : list A) :
  before x y (firstn n l) -> before x y l.
Proof.
  revert l. induction n as [| n IH]; intros l H.
  - simpl in H. inversion H.
  - destruct l as [| a l]; simpl in H; [inversion H |].
    inversion H as [l' Hin | a' l' Hb]; subst.
    + constructor. revert Hin. clear. revert l.
      induction n; intros [| b l]; simpl; intuition.
    + constructor. now apply IH.
Qed.

Lemma before_map_inv {A B : Type} (f : A -> B) (u v : B) (l : list A) :
  before u v (map f l) ->
  exists a b, f a = u /\ f b = v /\ before a b l.
Proof.
  induction l as [| x l IH]; simpl; intros H.
  - inversion H.
  - inversion H as [l' Hin | a' l' Hb]; subst.
    + apply in_map_iff in Hin. destruct Hin as [b [E Hb]].
      exists x, b. repeat split; auto. now constructor.
    + destruct (IH Hb) as [a [b [E1 [E2 H3]]]].
      exists a, b. repeat split; auto. now constructor.
Qed.

Lemma before_map {A B : Type} (f : A -> B) (a b : A) (l : list A) :
  before a b l -> before (f a) (f b) (map f l).
Proof.
  induction 1; simpl.
  - constructor. now apply in_map.
  - now constructor.
Qed.

Lemma first_index_app {A : Type} (p : A -> bool) (l l' : list A) :
  first_index p (l ++ l') =
  match first_index p l with
  | Some i => Some i
  | None => option_map (fun j => (List.length l + j)%nat) (first_index p l')
  end.
Proof.
  induction l as [| x l IH]; simpl.
  - destruct (first_index p l'); reflexivity.
  - destruct (p x); auto. rewrite IH.
    destruct (first_index p l); simpl; auto.
    destruct (first_index p l'); reflexivity.
Qed.

Lemma first_index_lt {A : Type} (p : A -> bool) (l : list A) (i : nat) :
  first_index p l = Some i -> (i < List.length l)%nat.
Proof.
  revert i. induction l as [| x l IH]; simpl; intros i H.
  - discriminate.
  - destruct (p x).
    + injection H as <-. lia.
    + destruct (first_index p l) as [j|]; simpl in H; [| discriminate].
      injection H as <-. specialize (IH j eq_refl). lia.
Qed.

Lemma first_index_None {A : Type} (p : A -> bool) (l : list A) :
  first_index p l = None <-> forall x, In x l -> p x = false.
Proof.
  induction l as [| x l IH]; simpl.
  - split; auto. intros _ x [].
  - destruct (p x) eqn:E.
    + split; [discriminate |]. intros H. specialize (H x (or_introl eq_refl)).
      congruence.
    + destruct (first_index p l) as [j|]; simpl.
      * split; [discriminate |]. intros H.
        assert (Some j = None) by (apply IH; intros; apply H; auto).
        discriminate.
      * split; auto. intros _ y [<- | Hy]; auto. now apply IH.
Qed.

Lemma first_index_ext {A : Type} (p q : A -> bool) (l : list A) :
  (forall x, In x l -> p x = q x) -> first_index p l = first_index q l.
Proof.
  induction l as [| x l IH]; simpl; intros H; auto.
  rewrite (H x (or_introl eq_refl)), IH; auto.
Qed.

(** ** [Array.prototype.sort] *)

Section SortFacts.
Context {A : Type}.
Variable compareFn : A -> A -> Z.

Lemma insert_perm (x : A) (l : list A) :
  Permutation (JS.insert compareFn x l) (x :: l).
Proof.
  induction l as [| y l IH]; simpl.
  - apply Permutation_refl.
  - destruct (compareFn x y <=? 0)%Z.
    + apply Permutation_refl.
    + rewrite IH. apply perm_swap.
Qed.

Lemma sort_perm (l : list A) : Permutation (JS.sort compareFn l) l.
Proof.
  induction l as [| x l IH]; simpl.
  - constructor.
  - rewrite insert_perm. now constructor.
Qed.

Lemma sort_In (l : list A) (x : A) : In x (JS.sort compareFn l) <-> In x l.
Proof.
  split; apply Permutation_in;
    [apply sort_perm | apply Permutation_sym, sort_perm].
Qed.

Lemma sort_length (l : list A) :
  List.length (JS.sort compareFn l) = List.length l.
Proof.
  apply Permutation_length, sort_perm.
Qed.

Lemma sort_nil_inv (l : list A) : JS.sort compareFn l = [] -> l = [].
Proof.
  intros H. apply Permutation_nil.
  rewrite <- H. apply sort_perm.
Qed.

(** Stability: an element is moved before another one only when the
    comparator puts it strictly first. *)
Lemma before_insert_inv (a b x : A) (l : list A) :
  before a b (JS.insert compareFn x l) ->
  (a = x /\ In b l) \/ (b = x /\ (compareFn x a > 0)%Z) \/ before a b l.
Proof.
  induction l as [| y l IH]; simpl; intros H.
  - inversion H as [l' Hin | a' l' Hb]; subst.
    + destruct Hin.
    + inversion Hb.
  - destruct (compareFn x y <=? 0)%Z eqn:E.
    + inversion H as [l' Hin | a' l' Hb]; subst; auto.
    + apply Z.leb_gt in E.
      inversion H as [l' Hin | a' l' Hb]; subst.
      * apply (Permutation_in _ (insert_perm x l)) in Hin.
        destruct Hin as [<- | Hin].
        -- right. left. split; auto. lia.
        -- right. right. now constructor.
      * destruct (IH Hb) as [[E1 H1] | [[E1 H1] | H1]].
        -- left. split; simpl; auto.
        -- right. left. auto.
        -- right. right. now constructor.
Qed.

Lemma sort_stable (a b : A) (l : list A) :
  before a b (JS.sort compareFn l) -> (compareFn b a <= 0)%Z ->
  before a b l.
Proof.
  intros H Hle. induction l as [| x l IH]; simpl in H.
  - inversion H.
  - apply before_insert_inv in H.
    destruct H as [[E1 H1] | [[E1 H1] | H1]].
    + subst. apply before_here. exact (proj1 (sort_In l b) H1).
    + subst. lia.
    + constructor. auto.
Qed.

(** Sortedness, for a comparator that is a total preorder. *)
Hypothesis compare_total :
  forall x y, (compareFn x y > 0)%Z -> (compareFn y x <= 0)%Z.
Hypothesis compare_trans :
  forall x y z,
    (compareFn x y <= 0)%Z -> (compareFn y z <= 0)%Z ->
    (compareFn x z <= 0)%Z.

Lemma insert_sorted (x : A) (l : list A) :
  StronglySorted (fun a b => (compareFn a b <= 0)%Z) l ->
  StronglySorted (fun a b => (compareFn a b <= 0)%Z) (JS.insert compareFn x l).
Proof.
  induction 1 as [| y l Hs IH Hall]; simpl.
  - repeat constructor.
  - destruct (compareFn x y <=? 0)%Z eqn:E.
    + apply Z.leb_le in E. constructor.
      * now constructor.
      * constructor; auto.
        eapply Forall_impl; [| exact Hall].
        intros z Hz. simpl in Hz. eapply compare_trans; eauto.
    + apply Z.leb_gt in E. constructor; auto.
      apply Forall_forall. intros z Hz.
      apply (Permutation_in _ (insert_perm x l)) in Hz.
      destruct Hz as [<- | Hz].
      * apply compare_total. lia.
      * rewrite Forall_forall in Hall. auto.
Qed.

Lemma sort_sorted (l : list A) :
  StronglySorted (fun a b => (compareFn a b <= 0)%Z) (JS.sort compareFn l).
Proof.
  induction l as [| x l IH]; simpl.
  - constructor.
  - now apply insert_sorted.
Qed.

End SortFacts.

Lemma StronglySorted_firstn {A : Type} (R : A -> A -> Prop) (n : nat)
  (l : list A) :
  StronglySorted R l -> StronglySorted R (firstn n l).
Proof.
  intros H. revert n. induction H as [| x l Hs IH Hall]; intros [| n]; simpl;
    try constructor; auto.
  apply Forall_forall. intros y Hy.
  rewrite Forall_forall in Hall. apply Hall.
  revert Hy. clear. revert l.
  induction n; intros [| b l]; simpl; intuition.
Qed.

Lemma StronglySorted_impl {A : Type} (R R' : A -> A -> Prop) (l : list A) :
  (forall a b, R a b -> R' a b) -> StronglySorted R l -> StronglySorted R' l.
Proof.
  intros H. induction 1 as [| x l Hs IH Hall]; constructor; auto.
  eapply Forall_impl; [| exact Hall]. auto.
Qed.

Lemma StronglySorted_map {A B : Type} (R : B -> B -> Prop) (f : A -> B)
  (l : list A) :
  StronglySorted (fun a b => R (f a) (f b)) l -> StronglySorted R (map f l).
Proof.
  induction 1 as [| x l Hs IH Hall]; simpl; constructor; auto.
  apply Forall_map. exact Hall.
Qed.

Lemma StronglySorted_strict (l : list Z) :
  StronglySorted Z.le l -> NoDup l -> StronglySorted Z.lt l.
Proof.
  induction 1 as [| x l Hs IH Hall]; intros Hnd; constructor.
  - apply IH. now inversion Hnd.
  - inversion Hnd as [| ? ? Hnot Hnd']; subst.
    rewrite Forall_forall in *. intros y Hy.
    specialize (Hall y Hy).
    assert (x <> y) by (intros ->; contradiction).
    lia.
Qed.

(** ** Objects as accumulators *)

Section ObjectFacts.
Context {K V : Type}.
Variable key_eqb : K -> K -> bool.
Hypothesis key_eqb_eq : forall a b, key_eqb a b = true <-> a = b.

Lemma key_eqb_refl (k : K) : key_eqb k k = true.
Proof. now apply key_eqb_eq. Qed.

Lemma key_eqb_neq (a b : K) : a <> b -> key_eqb a b = false.
Proof.
  intros H. apply not_true_is_false. intros E. now apply key_eqb_eq in E.
Qed.

Lemma get_None_iff (o : @JS.object K V) (k : K) :
  JS.get key_eqb o k = None <-> ~ In k (map fst o).
Proof.
  induction o as [| [k' v'] o IH]; simpl.
  - intuition.
  - destruct (key_eqb k' k) eqn:E.
    + apply key_eqb_eq in E. split; [discriminate |]. intros H. exfalso. auto.
    + rewrite IH. split.
      * intros H [H1 | H1]; auto.
        subst. rewrite key_eqb_refl in E. discriminate.
      * intros H H1. auto.
Qed.

Lemma get_Some_In (o : @JS.object K V) (k : K) (v : V) :
  JS.get key_eqb o k = Some v -> In (k, v) o.
Proof.
  induction o as [| [k' v'] o IH]; simpl; [discriminate |].
  destruct (key_eqb k' k) eqn:E.
  - apply key_eqb_eq in E. intros H. left. congruence.
  - auto.
Qed.

Lemma In_get_Some (o : @JS.object K V) (k : K) (v : V) :
  NoDup (map fst o) -> In (k, v) o -> JS.get key_eqb o k = Some v.
Proof.
  induction o as [| [k' v'] o IH]; simpl; intros Hnd Hin; [destruct Hin |].
  inversion Hnd as [| ? ? Hnot Hnd']; subst.
  destruct Hin as [E | Hin].
  - injection E as -> ->. now rewrite key_eqb_refl.
  - destruct (key_eqb k' k) eqn:E.
    + apply key_eqb_eq in E. subst. exfalso. apply Hnot.
      change k with (fst (k, v)). now apply in_map.
    + auto.
Qed.

Lemma set_absent (o : @JS.object K V) (k : K) (v : V) :
  JS.get key_eqb o k = None -> JS.set key_eqb o k v = o ++ [(k, v)].
Proof.
  induction o as [| [k' v'] o IH]; simpl; auto.
  destruct (key_eqb k' k); [discriminate |].
  intros H. now rewrite IH.
Qed.

Lemma set_present_keys (o : @JS.object K V) (k : K) (v c : V) :
  JS.get key_eqb o k = Some c ->
  map fst (JS.set key_eqb o k v) = map fst o.
Proof.
  induction o as [| [k' v'] o IH]; simpl; [discriminate |].
  destruct (key_eqb k' k); simpl; auto.
  intros H. now rewrite IH.
Qed.

Lemma get_set_same (o : @JS.object K V) (k : K) (v : V) :
  JS.get key_eqb (JS.set key_eqb o k v) k = Some v.
Proof.
  induction o as [| [k' v'] o IH]; simpl.
  - now rewrite key_eqb_refl.
  - destruct (key_eqb k' k) eqn:E; simpl; rewrite E; auto.
Qed.

Lemma get_set_other (o : @JS.object K V) (k k' : K) (v : V) :
  k <> k' ->
  JS.get key_eqb (JS.set key_eqb o k v) k' = JS.get key_eqb o k'.
Proof.
  intros Hne. induction o as [| [k0 v0] o IH]; simpl.
  - now rewrite key_eqb_neq.
  - destruct (key_eqb k0 k) eqn:E; simpl.
    + apply key_eqb_eq in E. subst. now rewrite key_eqb_neq.
    + now rewrite IH.
Qed.

Lemma set_keys_NoDup (o : @JS.object K V) (k : K) (v : V) :
  NoDup (map fst o) -> NoDup (map fst (JS.set key_eqb o k v)).
Proof.
  intros H. destruct (JS.get key_eqb o k) as [c |] eqn:E.
  - now rewrite (set_present_keys _ _ _ c E).
  - rewrite (set_absent _ _ _ E), map_app. simpl.
    apply get_None_iff in E.
    eapply Permutation_NoDup; [apply Permutation_cons_append |].
    now constructor.
Qed.

End ObjectFacts.

Section EntriesFacts.
Context {K V : Type}.
Variable array_index : K -> option N.

Lemma filter_split_perm {A : Type} (p : A -> bool) (l : list A) :
  Permutation (filter p l ++ filter (fun x => negb (p x)) l) l.
Proof.
  induction l as [| x l IH]; simpl; auto.
  destruct (p x); simpl.
  - now constructor.
  - apply Permutation_sym, Permutation_cons_app, Permutation_sym, IH.
Qed.

Lemma entries_perm (o : @JS.object K V) :
  Permutation (JS.entries array_index o) o.
Proof.
  unfold JS.entries.
  rewrite sort_perm. apply filter_split_perm.
Qed.

Lemma entries_no_index (o : @JS.object K V) :
  (forall p, In p o -> array_index (fst p) = None) ->
  JS.entries array_index o = o.
Proof.
  intros H. unfold JS.entries.
  assert (E : forall p, In p o -> JS.is_index array_index p = false).
  { intros p Hp. unfold JS.is_index. now rewrite (H p Hp). }
  clear H.
  assert (E1 : filter (JS.is_index array_index) o = []).
  { induction o as [| p o IH]; simpl; auto.
    rewrite (E p (or_introl eq_refl)). apply IH.
    intros q Hq. apply E. now right. }
  assert (E2 : filter (fun p => negb (JS.is_index array_index p)) o = o).
  { induction o as [| p o IH]; simpl; auto.
    rewrite (E p (or_introl eq_refl)). simpl. f_equal. apply IH.
    - intros q Hq. apply E. now right.
    - simpl in E1. rewrite (E p (or_introl eq_refl)) in E1. exact E1. }
  now rewrite E1, E2.
Qed.

End EntriesFacts.

(** ** Counting by key *)

Section TallyFacts.
Context {T K : Type}.
Variable key_eqb : K -> K -> bool.
Hypothesis key_eqb_eq : forall a b, key_eqb a b = true <-> a = b.
Variable keyof : T -> option K.

Lemma tally_snoc (l : list T) (x : T) :
  tally key_eqb keyof (l ++ [x]) = tally_step key_eqb keyof (tally key_eqb keyof l) x.
Proof.
  unfold tally. now rewrite fold_left_app.
Qed.

Lemma hits_snoc (k : K) (l : list T) (x : T) :
  hits key_eqb keyof k (l ++ [x]) = (hits key_eqb keyof k l + if hit key_eqb keyof k x then 1 else 0)%nat.
Proof.
  unfold hits. rewrite filter_app, length_app. simpl.
  now destruct (hit key_eqb keyof k x).
Qed.

Lemma hits_zero (k : K) (l : list T) :
  hits key_eqb keyof k l = 0%nat <-> first_index (hit key_eqb keyof k) l = None.
Proof.
  rewrite first_index_None. unfold hits.
  induction l as [| x l IH]; simpl.
  - intuition.
  - destruct (hit key_eqb keyof k x) eqn:E; simpl.
    + split; [discriminate |]. intros H.
      specialize (H x (or_introl eq_refl)). congruence.
    + rewrite IH. split.
      * intros H y [<- | Hy]; auto.
      * intros H y Hy. apply H. now right.
Qed.

Lemma tally_get (l : list T) (k : K) :
  JS.get key_eqb (tally key_eqb keyof l) k =
  if (hits key_eqb keyof k l =? 0)%nat then None else Some (hits key_eqb keyof k l).
Proof.
  induction l as [| x l IH] using rev_ind.
  - reflexivity.
  - rewrite tally_snoc, hits_snoc. unfold tally_step, hit.
    destruct (keyof x) as [k' |].
    + unfold bump. destruct (key_eqb k' k) eqn:E.
      * apply key_eqb_eq in E. subst k'.
        rewrite (get_set_same key_eqb key_eqb_eq), IH.
        destruct (hits key_eqb keyof k l) as [| n] eqn:Eh; simpl.
        -- reflexivity.
        -- replace (n + 1 =? 0)%nat with false
             by (symmetry; apply Nat.eqb_neq; lia).
           reflexivity.
      * rewrite (get_set_other key_eqb key_eqb_eq).
        -- rewrite IH, Nat.add_0_r. reflexivity.
        -- intros ->. rewrite (key_eqb_refl key_eqb key_eqb_eq) in E.
           discriminate.
    + now rewrite IH, Nat.add_0_r.
Qed.

Lemma tally_key_iff (l : list T) (k : K) :
  In k (map fst (tally key_eqb keyof l)) <-> (0 < hits key_eqb keyof k l)%nat.
Proof.
  pose proof (tally_get l k) as G.
  destruct (hits key_eqb keyof k l) as [| n] eqn:Eh; simpl in G.
  - apply (get_None_iff key_eqb key_eqb_eq) in G. split; [tauto | lia].
  - apply (get_Some_In key_eqb key_eqb_eq) in G. split; [lia |].
    intros _. change k with (fst (k, S n)). now apply in_map.
Qed.

Lemma tally_NoDup (l : list T) : NoDup (map fst (tally key_eqb keyof l)).
Proof.
  induction l as [| x l IH] using rev_ind.
  - constructor.
  - rewrite tally_snoc. unfold tally_step.
    destruct (keyof x) as [k |]; auto.
    unfold bump. destruct (JS.get key_eqb (tally key_eqb keyof l) k) as [c |] eqn:E.
    + now rewrite (set_present_keys key_eqb _ _ _ _ E).
    + rewrite (set_absent key_eqb _ _ _ E), map_app. simpl.
      apply (get_None_iff key_eqb key_eqb_eq) in E.
      apply NoDup_rev in IH.
      rewrite <- (rev_involutive (map fst (tally key_eqb keyof l) ++ [k])).
      apply NoDup_rev. rewrite rev_app_distr. simpl.
      constructor; auto. now rewrite <- in_rev.
Qed.

Lemma tally_In (l : list T) (k : K) (c : nat) :
  In (k, c) (tally key_eqb keyof l) <-> c = hits key_eqb keyof k l /\ (0 < c)%nat.
Proof.
  split.
  - intros H.
    apply (In_get_Some key_eqb key_eqb_eq _ _ _ (tally_NoDup l)) in H.
    rewrite tally_get in H.
    destruct (hits key_eqb keyof k l) as [| n]; simpl in H; [discriminate |].
    injection H as <-. split; auto. lia.
  - intros [-> Hpos]. apply (get_Some_In key_eqb key_eqb_eq).
    rewrite tally_get.
    destruct (hits key_eqb keyof k l); [lia | reflexivity].
Qed.

Lemma bump_total (o : @JS.object K nat) (k : K) :
  list_sum (map snd (bump key_eqb o k)) = S (list_sum (map snd o)).
Proof.
  unfold bump. induction o as [| [k' v'] o IH]; simpl; auto.
  destruct (key_eqb k' k); simpl.
  - lia.
  - rewrite IH. lia.
Qed.

Lemma tally_total (l : list T) :
  list_sum (map snd (tally key_eqb keyof l)) = List.length (filter (keyed keyof) l).
Proof.
  induction l as [| x l IH] using rev_ind.
  - reflexivity.
  - rewrite tally_snoc, filter_app, length_app. unfold tally_step, keyed.
    simpl. destruct (keyof x) as [k |]; simpl.
    + rewrite bump_total, IH. unfold keyed. lia.
    + rewrite IH. unfold keyed. lia.
Qed.

(** The accumulator lists its keys in the order in which they were first
    met. *)
Lemma tally_order (l : list T) (k1 k2 : K) :
  before k1 k2 (map fst (tally key_eqb keyof l)) ->
  exists i j,
    first_index (hit key_eqb keyof k1) l = Some i /\ first_index (hit key_eqb keyof k2) l = Some j
    /\ (i < j)%nat.
Proof.
  induction l as [| x l IH] using rev_ind; intros H.
  - inversion H.
  - assert (Keep : before k1 k2 (map fst (tally key_eqb keyof l)) ->
                   exists i j,
                     first_index (hit key_eqb keyof k1) (l ++ [x]) = Some i
                     /\ first_index (hit key_eqb keyof k2) (l ++ [x]) = Some j
                     /\ (i < j)%nat).
    { intros Hb. destruct (IH Hb) as [i [j [E1 [E2 Hlt]]]].
      exists i, j. rewrite !first_index_app, E1, E2. auto. }
    rewrite tally_snoc in H. unfold tally_step in H.
    destruct (keyof x) as [k |] eqn:Ek; auto.
    unfold bump in H.
    destruct (JS.get key_eqb (tally key_eqb keyof l) k) as [c |] eqn:E.
    + rewrite (set_present_keys key_eqb _ _ _ _ E) in H. auto.
    + rewrite (set_absent key_eqb _ _ _ E), map_app in H. simpl in H.
      apply before_snoc_inv in H. destruct H as [H | [Hin ->]]; auto.
      apply tally_key_iff in Hin.
      destruct (first_index (hit key_eqb keyof k1) l) as [i |] eqn:E1.
      2: { apply hits_zero in E1. lia. }
      assert (E2 : first_index (hit key_eqb keyof k) l = None).
      { apply hits_zero. rewrite tally_get in E.
        destruct (hits key_eqb keyof k l); [reflexivity | discriminate]. }
      exists i, (List.length l + 0)%nat.
      rewrite !first_index_app, E1, E2. simpl.
      assert (Ex : hit key_eqb keyof k x = true).
      { unfold hit. rewrite Ek. apply (key_eqb_refl key_eqb key_eqb_eq). }
      rewrite Ex. simpl.
      repeat split. apply first_index_lt in E1. lia.
Qed.

End TallyFacts.

(** ** The accumulators of [aggregatedData] as tallies *)

Lemma fold_left_ext {A B : Type} (f g : A -> B -> A) (l : list B) (a : A) :
  (forall a x, f a x = g a x) -> fold_left f l a = fold_left g l a.
Proof.
  intros H. revert a. induction l as [| x l IH]; simpl; intros a; auto.
  now rewrite H, IH.
Qed.

Lemma insert_map {A B : Type} (f : A -> B) (cmp : B -> B -> Z)
  (cmp' : A -> A -> Z) (x : A) (l : list A) :
  (forall a b, cmp (f a) (f b) = cmp' a b) ->
  JS.insert cmp (f x) (map f l) = map f (JS.insert cmp' x l).
Proof.
  intros H. induction l as [| y l IH]; simpl; auto.
  rewrite H. destruct (cmp' x y <=? 0)%Z; simpl; auto. now rewrite IH.
Qed.

Lemma sort_map {A B : Type} (f : A -> B) (cmp : B -> B -> Z)
  (cmp' : A -> A -> Z) (l : list A) :
  (forall a b, cmp (f a) (f b) = cmp' a b) ->
  JS.sort cmp (map f l) = map f (JS.sort cmp' l).
Proof.
  intros H. induction l as [| x l IH]; simpl; auto.
  rewrite IH. now apply insert_map.
Qed.

Lemma entries_counted (o : list (string * nat)) :
  JS.entries JS.array_index_of_string (map counted o)
  = map counted (JS.entries JS.array_index_of_string o).
Proof.
  unfold JS.entries. rewrite map_app, !filter_map_swap. f_equal.
  apply sort_map. reflexivity.
Qed.

Lemma get_counted (o : list (string * nat)) (k : string) :
  JS.get String.eqb (map counted o) k
  = option_map JS.Count (JS.get String.eqb o k).
Proof.
  induction o as [| [k' n] o IH]; simpl; auto.
  now destruct (k' =? k).
Qed.

Lemma set_counted (o : list (string * nat)) (k : string) (n : nat) :
  JS.set String.eqb (map counted o) k (JS.Count n)
  = map counted (JS.set String.eqb o k n).
Proof.
  induction o as [| [k' n'] o IH]; simpl; auto.
  destruct (k' =? k); simpl; auto. now rewrite IH.
Qed.

Lemma not_inherited_not_proto (k : string) :
  JS.inherited_text k = None -> (k =? "__proto__") = false.
Proof.
  unfold JS.inherited_text. now destruct (k =? "__proto__").
Qed.

(** While no key is inherited, the accumulator of a grouping holds the
    plain tally of its keys. *)
Lemma facet_counts_plain (pick : Item.t -> option string) (fs : list Item.t) :
  no_inherited_keys pick fs ->
  facet_counts pick fs = map counted (tally String.eqb (facet_key pick) fs).
Proof.
  induction fs as [| item fs IH] using rev_ind; intros H.
  - reflexivity.
  - rewrite (tally_snoc String.eqb). unfold facet_counts in *.
    rewrite fold_left_app. simpl.
    rewrite IH by (intros x key Hx; apply H, in_or_app; now left).
    unfold tally_step.
    destruct (pick item) as [key |] eqn:E.
    + destruct (JS.truthy key) eqn:T.
      * assert (K : facet_key pick item = Some key)
          by (unfold facet_key; now rewrite E, T).
        assert (N : JS.inherited_text key = None)
          by (apply (H item); [apply in_or_app; right; now left | exact E]).
        rewrite K. unfold JS.store, JS.plus_one, bump.
        rewrite (not_inherited_not_proto key N), get_counted, N.
        destruct (JS.get String.eqb (tally String.eqb (facet_key pick) fs)
                    key) as [n |]; simpl; now rewrite set_counted.
      * assert (K : facet_key pick item = None)
          by (unfold facet_key; now rewrite E, T).
        now rewrite K.
    + assert (K : facet_key pick item = None)
        by (unfold facet_key; now rewrite E).
      now rewrite K.
Qed.

(** While no key is inherited, the sorted rows of a grouping are those of
    the plain tally, compared by their numbers. *)
Lemma rows_plain {R : Type} (mkrow : string * JS.cell -> R)
  (val : R -> JS.cell) (pick : Item.t -> option string) (fs : list Item.t) :
  (forall p, val (mkrow p) = snd p) ->
  no_inherited_keys pick fs ->
  JS.sort (fun a b => JS.compared (JS.minus (val b) (val a)))
    (map mkrow (JS.entries JS.array_index_of_string (facet_counts pick fs)))
  = plain_rows (fun p => mkrow (counted p)) val pick fs.
Proof.
  intros Hval H. unfold plain_rows.
  rewrite (facet_counts_plain pick fs H), entries_counted, map_map.
  rewrite (sort_map (fun p => mkrow (counted p)) _
             (fun p q => (Z.of_nat (snd q) - Z.of_nat (snd p))%Z))
    by (intros a b; now rewrite !Hval).
  symmetry. apply sort_map. intros a b. now rewrite !Hval.
Qed.

Lemma intensity_counts_tally (fs : list Item.t) :
  intensity_counts fs = tally Z.eqb intensity_key fs.
Proof.
  unfold intensity_counts, tally. apply fold_left_ext.
  intros acc item. unfold tally_step, intensity_key, bump.
  now destruct (Item.intensity item).
Qed.

Lemma hits_pos_witness {T K : Type} (key_eqb : K -> K -> bool)
  (keyof : T -> option K) (k : K) (l : list T) :
  (0 < hits key_eqb keyof k l)%nat ->
  exists x, In x l /\ hit key_eqb keyof k x = true.
Proof.
  unfold hits. intros H.
  destruct (filter (hit key_eqb keyof k) l) as [| x r] eqn:E.
  - simpl in H. lia.
  - exists x. apply filter_In. rewrite E. now left.
Qed.

(** ** The filter *)

Lemma facet_test (sel : string) (v : option string) :
  negb (JS.truthy sel) || (JS.truthy_field v && JS.strict_eq v sel) = true
  <-> sel = "" \/ v = Some sel.
Proof.
  rewrite orb_true_iff, negb_true_iff, truthy_false, andb_true_iff.
  rewrite strict_eq_true. split.
  - intros [H | [_ H]]; auto.
  - intros [H | H]; auto.
    destruct (String.eqb_spec sel "") as [E | E]; auto.
    right. split; auto. subst v. simpl. now apply truthy_true.
Qed.

Lemma filteredData_filter (data : list Item.t) (filters : Filters.t) :
  filteredData data filters = filter (matches filters) data.
Proof.
  unfold filteredData. now destruct data.
Qed.

(** With no selection every record matches: every list of records is the
    filtered subset of itself. *)
Lemma filteredData_initial (data : list Item.t) :
  filteredData data Filters.initial = data.
Proof.
  rewrite filteredData_filter.
  rewrite (filter_ext (matches Filters.initial) (fun _ => true)).
  - apply filter_true.
  - reflexivity.
Qed.

(** C1: a record matches a filter state exactly when every one of the six
    facets is unset in the state, or present in the record and equal to the
    selected value; in particular a record with an absent field never
    matches while that facet has an active selection. *)
Theorem matches_iff_every_facet :
  (forall (item : Item.t) (filters : Filters.t),
      matches filters item = true <->
      forall k : facet, facet_ok k filters item)
  /\ (forall (item : Item.t) (filters : Filters.t) (k : facet),
         item_facet k item = None -> selected k filters <> "" ->
         matches filters item = false).
Proof.
  assert (main : forall item filters,
             matches filters item = true <->
             forall k : facet, facet_ok k filters item).
  { intros item filters. unfold matches, facet_ok.
    rewrite !andb_true_iff, !facet_test. split.
    - intros [[[[[Ht Hs] Hr] Hp] Ho] Hc] k. destruct k; assumption.
    - intros H.
      repeat split;
        [ apply (H Topic) | apply (H Sector) | apply (H Region)
        | apply (H Pestle) | apply (H Source) | apply (H Country) ]. }
  split; [exact main |].
  intros item filters k Habs Hsel.
  apply not_true_is_false. intros Hm.
  destruct (proj1 (main item filters) Hm k) as [E | E].
  - contradiction.
  - congruence.
Qed.

(** C9: filtering the already filtered subset again by the same filter
    state gives the same subset. *)
Theorem filteredData_idempotent (data : list Item.t) (filters : Filters.t) :
  filteredData (filteredData data filters) filters = filteredData data filters.
Proof.
  rewrite !filteredData_filter. apply filter_idem.
Qed.

(** C10: the filtered subset is an order-preserving subsequence of the raw
    dataset (its records occur in the dataset, in the dataset's order, none
    taken twice), and the scatter plot is given that subset as it is. *)
Theorem filteredData_subsequence (data : list Item.t) (filters : Filters.t) :
  subseq (filteredData data filters) data
  /\ (forall item, In item (filteredData data filters) -> In item data)
  /\ (List.length (filteredData data filters) <= List.length data)%nat
  /\ View.scatter (render data filters) = filteredData data filters.
Proof.
  assert (S : subseq (filteredData data filters) data).
  { rewrite filteredData_filter. apply filter_subseq. }
  split; [exact S |]. split; [| split].
  - apply subseq_In, S.
  - apply subseq_length, S.
  - reflexivity.
Qed.

(** ** The region and topic distributions *)

Lemma list_sum_perm (l l' : list nat) :
  Permutation l l' -> list_sum l = list_sum l'.
Proof.
  induction 1; simpl; lia.
Qed.

Lemma NoDup_firstn {A : Type} (n : nat) (l : list A) :
  NoDup l -> NoDup (firstn n l).
Proof.
  intros H. revert n. induction H as [| x l Hnot Hnd IH]; intros [| n]; simpl;
    try constructor; auto.
  intros Hin. apply Hnot. revert Hin. clear. revert l.
  induction n; intros [| b l]; simpl; intuition.
Qed.

Lemma firstn_In {A : Type} (n : nat) (l : list A) (x : A) :
  In x (firstn n l) -> In x l.
Proof.
  intros H. rewrite <- (firstn_skipn n l). apply in_or_app. now left.
Qed.

Lemma StronglySorted_app_inv {A : Type} (R : A -> A -> Prop)
  (l1 l2 : list A) (a b : A) :
  StronglySorted R (l1 ++ l2) -> In a l1 -> In b l2 -> R a b.
Proof.
  induction l1 as [| x l1 IH]; simpl; intros H Ha Hb; [destruct Ha |].
  inversion H as [| ? ? Hs Hall]; subst.
  destruct Ha as [<- | Ha].
  - rewrite Forall_forall in Hall. apply Hall, in_or_app. now right.
  - now apply IH.
Qed.

Lemma before_singleton {A : Type} (x y z : A) : ~ before x y [z].
Proof.
  intros H. inversion H as [l Hin | a l Hb]; subst.
  - destruct Hin.
  - inversion Hb.
Qed.

Lemma placeholder_length {A : Type} (l : list A) (ph : A) (n : nat) :
  (List.length l <= n)%nat -> (1 <= n)%nat ->
  (List.length match l with [] => [ph] | _ :: _ => l end <= n)%nat.
Proof.
  destruct l; simpl; lia.
Qed.

Lemma placeholder_sorted {A : Type} (R : A -> A -> Prop) (l : list A)
  (ph : A) :
  StronglySorted R l ->
  StronglySorted R match l with [] => [ph] | _ :: _ => l end.
Proof.
  destruct l; auto. intros _. repeat constructor.
Qed.

Lemma placeholder_before {A : Type} (x y ph : A) (l : list A) :
  before x y match l with [] => [ph] | _ :: _ => l end -> before x y l.
Proof.
  destruct l; auto. intros H. now apply before_singleton in H.
Qed.

Lemma by_count_sorted {R : Type} (cnt : R -> nat) (l : list R) :
  nonincreasing cnt
    (JS.sort (fun a b => (Z.of_nat (cnt b) - Z.of_nat (cnt a))%Z) l).
Proof.
  unfold nonincreasing.
  eapply StronglySorted_impl; [| apply sort_sorted; intros; lia].
  simpl. intros a b H. lia.
Qed.

Lemma facet_key_hit (pick : Item.t -> option string) (k : string)
  (item : Item.t) :
  hit String.eqb (facet_key pick) k item = true ->
  pick item = Some k /\ k <> "".
Proof.
  unfold hit, facet_key. destruct (pick item) as [s |]; [| discriminate].
  destruct (JS.truthy s) eqn:E; [| discriminate].
  intros H. apply String.eqb_eq in H. subst s.
  split; auto. now apply truthy_true.
Qed.

Lemma facet_hit_strict_eq (pick : Item.t -> option string) (k : string)
  (item : Item.t) :
  k <> "" ->
  hit String.eqb (facet_key pick) k item = JS.strict_eq (pick item) k.
Proof.
  intros Hk. unfold hit, facet_key, JS.strict_eq.
  destruct (pick item) as [s |]; auto.
  destruct (JS.truthy s) eqn:E; auto.
  apply truthy_false in E. subst s. symmetry. apply String.eqb_neq. auto.
Qed.

Lemma facet_hits_group_size (pick : Item.t -> option string) (k : string)
  (fs : list Item.t) :
  k <> "" -> hits String.eqb (facet_key pick) k fs = group_size pick k fs.
Proof.
  intros Hk. unfold hits, group_size. f_equal.
  apply filter_ext. intros item. now apply facet_hit_strict_eq.
Qed.

Lemma facet_key_None (pick : Item.t -> option string) (item : Item.t) :
  facet_key pick item = None <-> ungrouped pick item.
Proof.
  unfold facet_key, ungrouped. destruct (pick item) as [s |].
  - destruct (JS.truthy s) eqn:E.
    + apply truthy_true in E. split; [discriminate |].
      intros [H | H]; congruence.
    + apply truthy_false in E. subst. tauto.
  - tauto.
Qed.

Lemma facet_keyed (pick : Item.t -> option string) (fs : list Item.t) :
  filter (keyed (facet_key pick)) fs
  = filter (fun item => JS.truthy_field (pick item)) fs.
Proof.
  apply filter_ext. intros item. unfold keyed, facet_key, JS.truthy_field.
  destruct (pick item) as [s |]; auto. now destruct (JS.truthy s).
Qed.

Lemma group_key (pick : Item.t -> option string) (fs : list Item.t)
  (p : string * nat) :
  In p (tally String.eqb (facet_key pick) fs) ->
  fst p <> "" /\ exists item, In item fs /\ pick item = Some (fst p).
Proof.
  intros H. destruct p as [k c].
  apply (tally_In String.eqb String.eqb_eq) in H. destruct H as [-> Hpos].
  apply hits_pos_witness in Hpos. destruct Hpos as [item [Hin Hhit]].
  apply facet_key_hit in Hhit. destruct Hhit as [E Hk].
  simpl. split; auto. now exists item.
Qed.

Lemma tally_nil_iff {T K : Type} (key_eqb : K -> K -> bool)
  (key_eqb_eq : forall a b, key_eqb a b = true <-> a = b)
  (keyof : T -> option K) (l : list T) :
  tally key_eqb keyof l = [] <-> forall x, In x l -> keyof x = None.
Proof.
  split.
  - intros E x Hin. destruct (keyof x) as [k |] eqn:Ek; auto. exfalso.
    assert (Hpos : (0 < hits key_eqb keyof k l)%nat).
    { unfold hits.
      assert (Hx : In x (filter (hit key_eqb keyof k) l)).
      { apply filter_In. split; auto. unfold hit. rewrite Ek.
        now apply key_eqb_eq. }
      destruct (filter (hit key_eqb keyof k) l); [destruct Hx | simpl; lia]. }
    apply (tally_key_iff key_eqb key_eqb_eq keyof) in Hpos.
    rewrite E in Hpos. destruct Hpos.
  - intros H. unfold tally.
    assert (G : forall acc, fold_left (tally_step key_eqb keyof) l acc = acc).
    { induction l as [| x l IH]; intros acc; simpl; auto.
      unfold tally_step at 2. rewrite (H x (or_introl eq_refl)).
      apply IH. intros y Hy. apply H. now right. }
    apply G.
Qed.

Lemma tally_constant_key {T K : Type} (key_eqb : K -> K -> bool)
  (key_eqb_eq : forall a b, key_eqb a b = true <-> a = b)
  (keyof : T -> option K) (k : K) (l : list T) :
  (forall x, In x l -> keyof x = Some k) ->
  tally key_eqb keyof l
  = match l with
    | [] => []
    | _ :: _ => [(k, List.length l)]
    end.
Proof.
  induction l as [| x l IH] using rev_ind; intros H.
  - reflexivity.
  - rewrite tally_snoc. unfold tally_step.
    rewrite (H x) by (apply in_or_app; right; now left).
    rewrite IH by (intros y Hy; apply H, in_or_app; now left).
    rewrite length_app. simpl. unfold bump.
    destruct l as [| y l]; simpl.
    + reflexivity.
    + rewrite (key_eqb_refl key_eqb key_eqb_eq). reflexivity.
Qed.

Lemma entries_singleton {K V : Type} (array_index : K -> option N)
  (p : K * V) :
  JS.entries array_index [p] = [p].
Proof.
  unfold JS.entries. simpl. now destruct (JS.is_index array_index p).
Qed.

(** *** The rows of a grouping without inherited keys *)

Section Groups.
Context {R : Type}.
Variable row : string * nat -> R.
Variable key : R -> string.
Variable val : R -> JS.cell.
Hypothesis key_row : forall p, key (row p) = fst p.
Hypothesis val_row : forall p, val (row p) = JS.Count (snd p).
Variable ph : R.
Hypothesis val_ph : val ph = JS.Count 0.
Variable pick : Item.t -> option string.
Variable fs : list Item.t.

Lemma plain_rows_perm :
  Permutation (plain_rows row val pick fs)
    (map row (tally String.eqb (facet_key pick) fs)).
Proof.
  unfold plain_rows. rewrite sort_perm.
  apply Permutation_map, entries_perm.
Qed.

Lemma plain_rows_sorted :
  nonincreasing (fun r => count_of (val r)) (plain_rows row val pick fs).
Proof.
  unfold plain_rows. apply (by_count_sorted (fun r => count_of (val r))).
Qed.

Lemma plain_row (r : R) :
  In r (plain_rows row val pick fs) ->
  key r <> ""
  /\ val r = JS.Count (group_size pick (key r) fs)
  /\ (0 < group_size pick (key r) fs)%nat.
Proof.
  intros H. apply (Permutation_in _ plain_rows_perm) in H.
  apply in_map_iff in H. destruct H as [[k c] [<- Hin]].
  rewrite key_row, val_row. simpl.
  assert (Hk : k <> "") by now apply group_key in Hin.
  apply (tally_In String.eqb String.eqb_eq) in Hin.
  rewrite facet_hits_group_size in Hin by assumption.
  destruct Hin as [-> Hpos]. auto.
Qed.

Lemma plain_row_number (r : R) :
  In r (plain_rows row val pick fs) -> val r = JS.Count (count_of (val r)).
Proof.
  intros H. apply plain_row in H. destruct H as [_ [E _]].
  now rewrite E.
Qed.

Lemma plain_group (k : string) :
  k <> "" -> (0 < group_size pick k fs)%nat ->
  In (row (k, group_size pick k fs)) (plain_rows row val pick fs).
Proof.
  intros Hk Hpos.
  apply (Permutation_in _ (Permutation_sym plain_rows_perm)).
  apply in_map. apply (tally_In String.eqb String.eqb_eq).
  now rewrite facet_hits_group_size.
Qed.

Lemma shown_rows_In (r : R) :
  In r (shown_rows row val ph pick fs) ->
  r = ph \/ In r (plain_rows row val pick fs).
Proof.
  unfold shown_rows.
  destruct (firstn 10 (plain_rows row val pick fs)) as [| x l] eqn:E.
  - intros [<- | []]. now left.
  - intros H. right. apply (firstn_In 10). now rewrite E.
Qed.

Lemma shown_rows_length :
  (List.length (shown_rows row val ph pick fs) <= 10)%nat.
Proof.
  unfold shown_rows. apply placeholder_length; [apply firstn_le_length | lia].
Qed.

Lemma shown_rows_numbers (r : R) :
  In r (shown_rows row val ph pick fs) -> val r = JS.Count (count_of (val r)).
Proof.
  intros H. apply shown_rows_In in H. destruct H as [-> | H].
  - now rewrite val_ph.
  - now apply plain_row_number.
Qed.

Lemma shown_rows_counts :
  counts_are val (shown_rows row val ph pick fs)
    (map (fun r => count_of (val r)) (shown_rows row val ph pick fs)).
Proof.
  unfold counts_are. rewrite map_map. apply map_ext_in.
  intros r Hr. now apply shown_rows_numbers.
Qed.

Lemma shown_rows_sorted :
  counts_nonincreasing val (shown_rows row val ph pick fs).
Proof.
  exists (map (fun r => count_of (val r)) (shown_rows row val ph pick fs)).
  split; [apply shown_rows_counts |].
  unfold nonincreasing. apply StronglySorted_map.
  unfold shown_rows. apply placeholder_sorted, StronglySorted_firstn.
  apply plain_rows_sorted.
Qed.

Lemma shown_rows_ties :
  no_index_keys pick fs ->
  ties_in_first_seen_order key val pick fs (shown_rows row val ph pick fs).
Proof.
  intros Hno r1 r2 Hb Htie. unfold shown_rows in Hb.
  apply placeholder_before, before_firstn in Hb.
  unfold plain_rows in Hb.
  apply sort_stable in Hb; [| rewrite Htie; lia].
  rewrite entries_no_index in Hb.
  2: { intros p Hp. apply group_key in Hp.
       destruct Hp as [_ [item [Hin E]]]. eapply Hno; eauto. }
  apply before_map_inv in Hb. destruct Hb as [p1 [p2 [E1 [E2 Hb]]]].
  subst r1 r2. rewrite !key_row.
  destruct (before_In _ _ _ Hb) as [In1 In2].
  apply group_key in In1, In2.
  destruct In1 as [K1 _], In2 as [K2 _].
  apply (before_map fst) in Hb.
  apply (tally_order String.eqb String.eqb_eq) in Hb.
  destruct Hb as [i [j [F1 [F2 Hlt]]]].
  exists i, j. repeat split; auto.
  - rewrite <- F1. apply first_index_ext. intros item _.
    symmetry. now apply facet_hit_strict_eq.
  - rewrite <- F2. apply first_index_ext. intros item _.
    symmetry. now apply facet_hit_strict_eq.
Qed.

Lemma shown_rows_cut (k : string) :
  k <> "" -> (0 < group_size pick k fs)%nat ->
  ~ In k (map key (shown_rows row val ph pick fs)) ->
  List.length (shown_rows row val ph pick fs) = 10%nat
  /\ Forall
       (fun r => exists n, val r = JS.Count n
                           /\ (group_size pick k fs <= n)%nat)
       (shown_rows row val ph pick fs).
Proof.
  intros Hk Hpos Hnot.
  pose proof (plain_group k Hk Hpos) as Hin.
  assert (E : shown_rows row val ph pick fs
              = firstn 10 (plain_rows row val pick fs)).
  { unfold shown_rows.
    destruct (plain_rows row val pick fs); [destruct Hin | reflexivity]. }
  rewrite E in *. clear E.
  rewrite <- (firstn_skipn 10 (plain_rows row val pick fs)) in Hin.
  apply in_app_or in Hin. destruct Hin as [Hin | Hin].
  - exfalso. apply Hnot.
    apply (in_map key) in Hin. now rewrite key_row in Hin.
  - split.
    + apply firstn_length_le.
      destruct (le_lt_dec 10 (List.length (plain_rows row val pick fs)))
        as [L | L]; auto.
      rewrite skipn_all2 in Hin by lia. destruct Hin.
    + apply Forall_forall. intros r Hr.
      exists (count_of (val r)). split.
      * apply plain_row_number. eapply firstn_In; eauto.
      * pose proof plain_rows_sorted as S. unfold nonincreasing in S.
        rewrite <- (firstn_skipn 10 (plain_rows row val pick fs)) in S.
        pose proof (StronglySorted_app_inv _ _ _ _ _ S Hr Hin) as Hle.
        simpl in Hle. now rewrite val_row in Hle.
Qed.

Lemma shown_rows_total :
  (List.length (shown_rows row val ph pick fs) < 10)%nat ->
  list_sum (map (fun r => count_of (val r)) (shown_rows row val ph pick fs))
  = List.length (filter (fun item => JS.truthy_field (pick item)) fs).
Proof.
  assert (T : list_sum
                (map (fun r => count_of (val r)) (plain_rows row val pick fs))
              = List.length
                  (filter (fun item => JS.truthy_field (pick item)) fs)).
  { rewrite (list_sum_perm _ _
               (Permutation_map (fun r => count_of (val r)) plain_rows_perm)).
    rewrite map_map.
    rewrite (map_ext (fun p => count_of (val (row p))) snd)
      by (intros p; now rewrite val_row).
    now rewrite (tally_total String.eqb), facet_keyed. }
  unfold shown_rows.
  destruct (firstn 10 (plain_rows row val pick fs)) as [| r l] eqn:E.
  - intros _.
    assert (N : plain_rows row val pick fs = [])
      by (destruct (plain_rows row val pick fs); [auto | discriminate]).
    rewrite N in T. simpl in *. now rewrite val_ph.
  - intros Hlen.
    assert (F : firstn 10 (plain_rows row val pick fs)
                = plain_rows row val pick fs).
    { apply firstn_all2.
      destruct (le_lt_dec (List.length (plain_rows row val pick fs)) 10)
        as [L | L]; auto.
      assert (List.length (firstn 10 (plain_rows row val pick fs)) = 10%nat)
        by (apply firstn_length_le; lia).
      rewrite E in *. lia. }
    rewrite <- E, F. exact T.
Qed.

Lemma shown_rows_one_group (v : string) :
  v <> "" ->
  (forall item, In item fs -> pick item = Some v) ->
  shown_rows row val ph pick fs
  = match fs with
    | [] => [ph]
    | _ :: _ => [row (v, List.length fs)]
    end.
Proof.
  intros Hv H. unfold shown_rows, plain_rows.
  rewrite (tally_constant_key String.eqb String.eqb_eq _ v).
  - destruct fs as [| item fs']; [reflexivity |].
    now rewrite entries_singleton.
  - intros item Hin. unfold facet_key. rewrite (H item Hin).
    apply truthy_true in Hv. now rewrite Hv.
Qed.

End Groups.

(** *** What a grouping holds, inherited keys included *)

Lemma string_app_assoc (a b c : string) :
  ((a ++ b) ++ c)%string = (a ++ (b ++ c))%string.
Proof.
  induction a as [| x a IH]; simpl; [reflexivity | now rewrite IH].
Qed.

Lemma ones_snoc (n : nat) : (ones n ++ "1")%string = ones (n + 1).
Proof.
  induction n as [| n IH]; simpl; [reflexivity | now rewrite IH].
Qed.

Lemma truthy_with_ones (s : string) (n : nat) :
  JS.truthy (s ++ ones (S n)) = true.
Proof.
  destruct s; reflexivity.
Qed.

Lemma facet_counts_snoc (pick : Item.t -> option string) (fs : list Item.t)
  (item : Item.t) :
  facet_counts pick (fs ++ [item])
  = match facet_key pick item with
    | Some key =>
        JS.store (facet_counts pick fs) key
          (JS.plus_one (facet_counts pick fs) key)
    | None => facet_counts pick fs
    end.
Proof.
  unfold facet_counts, facet_key. rewrite fold_left_app. simpl.
  destruct (pick item) as [key |]; auto.
  now destruct (JS.truthy key).
Qed.

(** The stored value of every key, by its number of records. *)
Lemma facet_counts_get (pick : Item.t -> option string) (fs : list Item.t)
  (k : string) :
  JS.get String.eqb (facet_counts pick fs) k
  = if ((hits String.eqb (facet_key pick) k fs =? 0)%nat
        || (k =? "__proto__"))%bool
    then None
    else Some (group_value k (hits String.eqb (facet_key pick) k fs)).
Proof.
  induction fs as [| item fs IH] using rev_ind.
  - reflexivity.
  - rewrite (hits_snoc String.eqb), facet_counts_snoc. unfold hit.
    destruct (facet_key pick item) as [key |];
      [| now rewrite Nat.add_0_r].
    unfold JS.store. destruct (key =? "__proto__") eqn:P.
    + destruct (key =? k) eqn:Ek; [| now rewrite Nat.add_0_r].
      apply String.eqb_eq in Ek. subst k.
      now rewrite IH, P, !orb_true_r.
    + destruct (key =? k) eqn:Ek.
      * apply String.eqb_eq in Ek. subst k.
        rewrite (get_set_same String.eqb String.eqb_eq), P, orb_false_r.
        replace (hits String.eqb (facet_key pick) key fs + 1 =? 0)%nat
          with false by (symmetry; apply Nat.eqb_neq; lia).
        f_equal. unfold JS.plus_one. rewrite IH, P, orb_false_r.
        unfold group_value.
        destruct (hits String.eqb (facet_key pick) key fs) as [| n]; simpl.
        -- now destruct (JS.inherited_text key).
        -- destruct (JS.inherited_text key) as [s |]; [| reflexivity].
           change (String "1" (ones n)) with (ones (S n)).
           now rewrite (truthy_with_ones s n), string_app_assoc, ones_snoc.
      * rewrite (get_set_other String.eqb String.eqb_eq), Nat.add_0_r.
        -- exact IH.
        -- intros ->. rewrite String.eqb_refl in Ek. discriminate.
Qed.

Lemma facet_counts_NoDup (pick : Item.t -> option string)
  (fs : list Item.t) :
  NoDup (map fst (facet_counts pick fs)).
Proof.
  induction fs as [| item fs IH] using rev_ind.
  - constructor.
  - rewrite facet_counts_snoc.
    destruct (facet_key pick item) as [key |]; auto.
    unfold JS.store. destruct (key =? "__proto__"); auto.
    now apply (set_keys_NoDup String.eqb String.eqb_eq).
Qed.

(** Every entry of the accumulator is a group: a non-empty key other than
    [__proto__] with at least one record, and the value that this number
    of records leaves under the key. *)
Lemma facet_counts_In (pick : Item.t -> option string) (fs : list Item.t)
  (k : string) (v : JS.cell) :
  In (k, v) (facet_counts pick fs) ->
  k <> "" /\ k <> "__proto__"
  /\ (0 < group_size pick k fs)%nat
  /\ v = group_value k (group_size pick k fs).
Proof.
  intros H.
  apply (In_get_Some String.eqb String.eqb_eq _ _ _
           (facet_counts_NoDup pick fs)) in H.
  rewrite facet_counts_get in H.
  destruct (hits String.eqb (facet_key pick) k fs) as [| n] eqn:Eh;
    [discriminate |].
  destruct (k =? "__proto__") eqn:P; [discriminate |].
  simpl in H. injection H as <-.
  assert (Hk : k <> "").
  { assert (Hpos : (0 < hits String.eqb (facet_key pick) k fs)%nat) by lia.
    apply hits_pos_witness in Hpos. destruct Hpos as [item [_ Hhit]].
    now apply facet_key_hit in Hhit. }
  rewrite facet_hits_group_size in Eh by assumption. rewrite Eh.
  split; [exact Hk |]. split; [now apply String.eqb_neq |].
  split; [lia | reflexivity].
Qed.

Lemma uncounted_key (pick : Item.t -> option string) (item : Item.t) :
  uncounted pick item
  <-> match facet_key pick item with
      | Some key => key = "__proto__"
      | None => True
      end.
Proof.
  unfold uncounted. rewrite <- facet_key_None. unfold facet_key.
  destruct (pick item) as [s |]; [| tauto].
  destruct (JS.truthy s) eqn:T; [| tauto].
  split.
  - intros [H | H]; congruence.
  - intros ->. now right.
Qed.

Lemma facet_counts_nil_iff (pick : Item.t -> option string)
  (fs : list Item.t) :
  facet_counts pick fs = [] <-> Forall (uncounted pick) fs.
Proof.
  rewrite Forall_forall. split.
  - intros E item Hin. apply uncounted_key.
    destruct (facet_key pick item) as [key |] eqn:K; [| exact I].
    destruct (key =? "__proto__") eqn:P; [now apply String.eqb_eq |].
    exfalso. pose proof (facet_counts_get pick fs key) as G.
    rewrite E, P, orb_false_r in G.
    assert (Hx : In item (filter (hit String.eqb (facet_key pick) key) fs)).
    { apply filter_In. split; auto. unfold hit. rewrite K.
      apply String.eqb_refl. }
    unfold hits in G.
    destruct (filter (hit String.eqb (facet_key pick) key) fs);
      [destruct Hx | discriminate].
  - induction fs as [| item fs IH] using rev_ind; intros H; [reflexivity |].
    rewrite facet_counts_snoc.
    assert (U : uncounted pick item)
      by (apply H, in_or_app; right; now left).
    rewrite IH by (intros x Hx; apply H, in_or_app; now left).
    apply uncounted_key in U.
    destruct (facet_key pick item) as [key |]; [| reflexivity].
    now subst key.
Qed.

Section Rows.
Context {R : Type}.
Variable mkrow : string * JS.cell -> R.
Variable key : R -> string.
Variable val : R -> JS.cell.
Hypothesis key_mkrow : forall p, key (mkrow p) = fst p.
Hypothesis val_mkrow : forall p, val (mkrow p) = snd p.
Variable cmp : R -> R -> Z.
Variable ph : R.
Hypothesis val_ph : val ph = JS.Count 0.
Variable pick : Item.t -> option string.
Variable fs : list Item.t.

(** The rows before [slice(0, 10)]. *)
Let ranked : list R :=
  JS.sort cmp
    (map mkrow (JS.entries JS.array_index_of_string (facet_counts pick fs))).

Lemma ranked_perm : Permutation ranked (map mkrow (facet_counts pick fs)).
Proof.
  unfold ranked. rewrite sort_perm. apply Permutation_map, entries_perm.
Qed.

Lemma ranked_row (r : R) :
  In r ranked ->
  key r <> "" /\ key r <> "__proto__"
  /\ (0 < group_size pick (key r) fs)%nat
  /\ val r = group_value (key r) (group_size pick (key r) fs).
Proof.
  intros H. apply (Permutation_in _ ranked_perm) in H.
  apply in_map_iff in H. destruct H as [[k v] [<- Hin]].
  rewrite key_mkrow, val_mkrow. simpl. now apply facet_counts_In.
Qed.

Lemma top_rows (r : R) :
  In r match firstn 10 ranked with [] => [ph] | _ :: _ => firstn 10 ranked end
  ->
  r = ph
  \/ (key r <> "" /\ key r <> "__proto__"
      /\ (0 < group_size pick (key r) fs)%nat
      /\ val r = group_value (key r) (group_size pick (key r) fs)).
Proof.
  destruct (firstn 10 ranked) as [| x l] eqn:E.
  - intros [<- | []]. now left.
  - intros H. right. apply ranked_row, (firstn_In 10). now rewrite E.
Qed.

Lemma top_keys_NoDup :
  NoDup
    (map key
       match firstn 10 ranked with [] => [ph] | _ :: _ => firstn 10 ranked end).
Proof.
  assert (H : NoDup (map key (firstn 10 ranked))).
  { rewrite <- firstn_map. apply NoDup_firstn.
    eapply Permutation_NoDup.
    - apply Permutation_sym, Permutation_map, ranked_perm.
    - rewrite map_map.
      rewrite (map_ext (fun p => key (mkrow p)) fst) by apply key_mkrow.
      apply facet_counts_NoDup. }
  destruct (firstn 10 ranked); auto.
  simpl. constructor; [intros [] | constructor].
Qed.

Lemma top_placeholder_iff :
  match firstn 10 ranked with [] => [ph] | _ :: _ => firstn 10 ranked end
  = [ph]
  <-> Forall (uncounted pick) fs.
Proof.
  rewrite <- facet_counts_nil_iff.
  assert (N : ranked = [] <-> facet_counts pick fs = []).
  { pose proof ranked_perm as P. split; intros E; rewrite E in P.
    - apply Permutation_nil in P.
      destruct (facet_counts pick fs); [auto | discriminate].
    - now apply Permutation_sym, Permutation_nil in P. }
  rewrite <- N.
  destruct ranked as [| r l] eqn:E; [simpl; tauto |].
  split; [| discriminate]. intros H.
  assert (Hin : In ph ranked).
  { rewrite E. simpl in H. injection H as -> _. now left. }
  apply ranked_row in Hin. destruct Hin as [_ [_ [Hpos Hv]]].
  rewrite val_ph in Hv. unfold group_value in Hv.
  destruct (JS.inherited_text (key ph)); [discriminate |].
  injection Hv as Hv. lia.
Qed.

End Rows.

Lemma byRegion_plain (fs : list Item.t) :
  no_inherited_keys Item.region fs ->
  Aggregated.byRegion (aggregatedData fs)
  = shown_rows region_row RegionRow.value
      (RegionRow.mk "No Data" (JS.Count 0)) Item.region fs.
Proof.
  intros H. unfold aggregatedData. cbv beta zeta.
  cbn [Aggregated.byRegion].
  rewrite (rows_plain (fun '(name, value) => RegionRow.mk name value)
             RegionRow.value Item.region fs);
    [reflexivity | now intros [k c] | exact H].
Qed.

Lemma byTopic_plain (fs : list Item.t) :
  no_inherited_keys Item.topic fs ->
  Aggregated.byTopic (aggregatedData fs)
  = shown_rows topic_row TopicRow.count
      (TopicRow.mk "No Data" (JS.Count 0)) Item.topic fs.
Proof.
  intros H. unfold aggregatedData. cbv beta zeta.
  cbn [Aggregated.byTopic].
  rewrite (rows_plain (fun '(topic, count) => TopicRow.mk topic count)
             TopicRow.count Item.topic fs);
    [reflexivity | now intros [k c] | exact H].
Qed.

Lemma byRegion_length (fs : list Item.t) :
  (List.length (Aggregated.byRegion (aggregatedData fs)) <= 10)%nat.
Proof.
  unfold aggregatedData. cbv beta zeta. cbn [Aggregated.byRegion].
  apply placeholder_length; [apply firstn_le_length | lia].
Qed.

Lemma byTopic_length (fs : list Item.t) :
  (List.length (Aggregated.byTopic (aggregatedData fs)) <= 10)%nat.
Proof.
  unfold aggregatedData. cbv beta zeta. cbn [Aggregated.byTopic].
  apply placeholder_length; [apply firstn_le_length | lia].
Qed.

(** C5: with a topic named like a member of [Object.prototype] the topic
    distribution is not in non-increasing order of count.  The read
    [acc[key] || 0] of the first "constructor" finds the inherited
    function, [+ 1] turns it into a string, and that string is stored as
    the count; the comparator then yields NaN, and the row of the one
    "constructor" record stays ahead of the row of the two "oil"
    records. *)
Theorem byTopic_inherited_key_is_miscounted :
  Aggregated.byTopic (aggregatedData inherited_topic)
  = [TopicRow.mk "constructor"
       (JS.Text "function Object() { [native code] }1");
     TopicRow.mk "oil" (JS.Count 2)]
  /\ ~ counts_nonincreasing TopicRow.count
         (Aggregated.byTopic (aggregatedData inherited_topic))
  /\ (group_size Item.topic "constructor" inherited_topic
      < group_size Item.topic "oil" inherited_topic)%nat.
Proof.
  split; [reflexivity |]. split.
  - intros [ns [H _]]. unfold counts_are in H. vm_compute in H.
    destruct ns as [| n ns]; discriminate.
  - vm_compute. lia.
Qed.

(** X19: the region and topic distributions hold at most ten rows, and
    for the empty filtered subset each is exactly its placeholder; while
    no group key names a member of [Object.prototype], the counts are
    numbers in non-increasing order. *)
Theorem top_ten_by_count :
  forall fs : list Item.t,
    (List.length (Aggregated.byRegion (aggregatedData fs)) <= 10)%nat
    /\ (List.length (Aggregated.byTopic (aggregatedData fs)) <= 10)%nat
    /\ (no_inherited_keys Item.region fs ->
        counts_nonincreasing RegionRow.value
          (Aggregated.byRegion (aggregatedData fs)))
    /\ (no_inherited_keys Item.topic fs ->
        counts_nonincreasing TopicRow.count
          (Aggregated.byTopic (aggregatedData fs)))
    /\ Aggregated.byRegion (aggregatedData [])
       = [RegionRow.mk "No Data" (JS.Count 0)]
    /\ Aggregated.byTopic (aggregatedData [])
       = [TopicRow.mk "No Data" (JS.Count 0)].
Proof.
  intros fs.
  split; [apply byRegion_length |]. split; [apply byTopic_length |].
  split; [| split; [| split; reflexivity]].
  - intros H. rewrite (byRegion_plain fs H).
    apply (shown_rows_sorted region_row RegionRow.name); reflexivity.
  - intros H. rewrite (byTopic_plain fs H).
    apply (shown_rows_sorted topic_row TopicRow.topic); reflexivity.
Qed.

Lemma top_ten_by_count_witness :
  no_inherited_keys Item.region tied_groups
  /\ no_inherited_keys Item.topic tied_groups
  /\ counts_nonincreasing RegionRow.value
       (Aggregated.byRegion (aggregatedData tied_groups))
  /\ counts_nonincreasing TopicRow.count
       (Aggregated.byTopic (aggregatedData tied_groups)).
Proof.
  assert (Hr : no_inherited_keys Item.region tied_groups)
    by (intros item key Hin E; each_sample Hin E).
  assert (Ht : no_inherited_keys Item.topic tied_groups)
    by (intros item key Hin E; each_sample Hin E).
  split; [exact Hr |]. split; [exact Ht |].
  destruct (top_ten_by_count tied_groups) as [_ [_ [Sr [St _]]]].
  split; [exact (Sr Hr) | exact (St Ht)].
Defined.

(** C7 as stated fails: a group whose key is an array index ("7") is
    listed by [Object.entries] before every other key, so with equal
    counts it precedes the group "b" that was met first. *)
Lemma index_key_precedes_first_seen :
  ~ ties_in_first_seen_order RegionRow.name RegionRow.value Item.region
      [sample None (Some "b") None; sample None (Some "7") None]
      (Aggregated.byRegion
         (aggregatedData
            [sample None (Some "b") None; sample None (Some "7") None])).
Proof.
  intros H.
  specialize (H (RegionRow.mk "7" (JS.Count 1))
                (RegionRow.mk "b" (JS.Count 1))).
  destruct H as [i [j [Hi [Hj Hlt]]]].
  - vm_compute. apply before_here. now left.
  - reflexivity.
  - vm_compute in Hi, Hj. injection Hi as <-. injection Hj as <-. lia.
Qed.

(** C7, amended: when no region is an array index or names a member of
    [Object.prototype], rows of the region distribution that have equal
    counts stand in the order in which their regions were first met in the
    filtered subset; and likewise the rows of the topic distribution when
    no topic is such a key. *)
Theorem ties_keep_first_seen_order (fs : list Item.t) :
  (no_index_keys Item.region fs ->
   no_inherited_keys Item.region fs ->
   ties_in_first_seen_order RegionRow.name RegionRow.value Item.region fs
     (Aggregated.byRegion (aggregatedData fs)))
  /\ (no_index_keys Item.topic fs ->
      no_inherited_keys Item.topic fs ->
      ties_in_first_seen_order TopicRow.topic TopicRow.count Item.topic fs
        (Aggregated.byTopic (aggregatedData fs))).
Proof.
  split; intros Hi Hp.
  - rewrite (byRegion_plain fs Hp).
    apply (shown_rows_ties region_row RegionRow.name);
      first [exact Hi | reflexivity].
  - rewrite (byTopic_plain fs Hp).
    apply (shown_rows_ties topic_row TopicRow.topic);
      first [exact Hi | reflexivity].
Qed.

Lemma ties_keep_first_seen_order_witness :
  no_index_keys Item.region tied_groups
  /\ no_inherited_keys Item.region tied_groups
  /\ no_index_keys Item.topic tied_groups
  /\ no_inherited_keys Item.topic tied_groups
  /\ ties_in_first_seen_order RegionRow.name RegionRow.value Item.region
       tied_groups (Aggregated.byRegion (aggregatedData tied_groups))
  /\ ties_in_first_seen_order TopicRow.topic TopicRow.count Item.topic
       tied_groups (Aggregated.byTopic (aggregatedData tied_groups)).
Proof.
  assert (Ir : no_index_keys Item.region tied_groups)
    by (intros item key Hin E; each_sample Hin E).
  assert (Pr : no_inherited_keys Item.region tied_groups)
    by (intros item key Hin E; each_sample Hin E).
  assert (It : no_index_keys Item.topic tied_groups)
    by (intros item key Hin E; each_sample Hin E).
  assert (Pt : no_inherited_keys Item.topic tied_groups)
    by (intros item key Hin E; each_sample Hin E).
  split; [exact Ir |]. split; [exact Pr |].
  split; [exact It |]. split; [exact Pt |].
  split.
  - exact (proj1 (ties_keep_first_seen_order tied_groups) Ir Pr).
  - exact (proj2 (ties_keep_first_seen_order tied_groups) It Pt).
Defined.

(** ** The intensity histogram *)

Lemma byIntensity_perm (fs : list Item.t) :
  Permutation (Aggregated.byIntensity (aggregatedData fs))
    (map (fun p => IntensityRow.mk (JS.parseInt_key (fst p)) (snd p))
       (tally Z.eqb intensity_key fs)).
Proof.
  unfold aggregatedData. cbv beta zeta. cbn [Aggregated.byIntensity].
  rewrite sort_perm, intensity_counts_tally.
  rewrite (map_ext (fun '(intensity, count) =>
                      IntensityRow.mk (JS.parseInt_key intensity) count)
             (fun p => IntensityRow.mk (JS.parseInt_key (fst p)) (snd p)))
    by now intros [k c].
  apply Permutation_map, entries_perm.
Qed.

Lemma byIntensity_ascending (fs : list Item.t) :
  StronglySorted Z.le
    (map IntensityRow.intensity (Aggregated.byIntensity (aggregatedData fs))).
Proof.
  unfold aggregatedData. cbv beta zeta. cbn [Aggregated.byIntensity].
  apply StronglySorted_map.
  eapply StronglySorted_impl; [| apply sort_sorted; intros; lia].
  simpl. intros a b H. lia.
Qed.

Lemma intensity_hits (b : Z) (fs : list Item.t) :
  hits Z.eqb intensity_key b fs = occurrences JS.Math_round b fs.
Proof.
  unfold hits, occurrences. f_equal. apply filter_ext. intros item.
  unfold hit, intensity_key, rounds_into.
  now destruct (Item.intensity item).
Qed.

Lemma intensity_keyed (fs : list Item.t) :
  filter (keyed intensity_key) fs = filter has_intensity fs.
Proof.
  apply filter_ext. intros item. unfold keyed, intensity_key, has_intensity.
  now destruct (Item.intensity item).
Qed.

Lemma plain_key (fs : list Item.t) (k : Z) :
  plain_numerals fs ->
  In k (map fst (tally Z.eqb intensity_key fs)) ->
  JS.parseInt_key k = k.
Proof.
  intros Hplain Hin.
  apply (tally_key_iff Z.eqb Z.eqb_eq) in Hin.
  apply hits_pos_witness in Hin. destruct Hin as [item [Hin Hhit]].
  unfold hit, intensity_key in Hhit.
  destruct (Item.intensity item) as [x |] eqn:E; [| discriminate].
  simpl in Hhit. apply Z.eqb_eq in Hhit. subst k.
  unfold JS.parseInt_key.
  specialize (Hplain item x Hin E). apply Z.ltb_lt in Hplain.
  now rewrite Hplain.
Qed.

Lemma plain_keys (fs : list Item.t) :
  plain_numerals fs ->
  map JS.parseInt_key (map fst (tally Z.eqb intensity_key fs))
  = map fst (tally Z.eqb intensity_key fs).
Proof.
  intros Hplain. rewrite <- (map_id (map fst _)) at 2.
  apply map_ext_in. intros k Hk. eapply plain_key; eauto.
Qed.

Lemma byIntensity_total (fs : list Item.t) :
  total_count (Aggregated.byIntensity (aggregatedData fs))
  = List.length (filter has_intensity fs).
Proof.
  unfold total_count.
  rewrite (list_sum_perm _ _
             (Permutation_map IntensityRow.count (byIntensity_perm fs))).
  rewrite map_map. simpl.
  rewrite (tally_total Z.eqb). now rewrite intensity_keyed.
Qed.

Lemma byIntensity_distinct (fs : list Item.t) :
  plain_numerals fs ->
  NoDup
    (map IntensityRow.intensity (Aggregated.byIntensity (aggregatedData fs))).
Proof.
  intros Hplain.
  eapply Permutation_NoDup.
  - apply Permutation_sym, Permutation_map, byIntensity_perm.
  - rewrite map_map. simpl.
    rewrite <- (map_map fst JS.parseInt_key), plain_keys by assumption.
    apply (tally_NoDup Z.eqb Z.eqb_eq).
Qed.

Lemma byIntensity_rows (fs : list Item.t) (b : Z) (c : nat) :
  plain_numerals fs ->
  In (IntensityRow.mk b c) (Aggregated.byIntensity (aggregatedData fs)) <->
  c = occurrences JS.Math_round b fs /\ (0 < c)%nat.
Proof.
  intros Hplain.
  rewrite <- intensity_hits, <- (tally_In Z.eqb Z.eqb_eq).
  split.
  - intros H. apply (Permutation_in _ (byIntensity_perm fs)) in H.
    apply in_map_iff in H. destruct H as [[k c'] [E Hin]].
    simpl in E. injection E as E1 E2. subst c'.
    rewrite (plain_key fs k Hplain) in E1.
    + now subst k.
    + change k with (fst (k, c)). now apply in_map.
  - intros H.
    apply (Permutation_in _ (Permutation_sym (byIntensity_perm fs))).
    apply in_map_iff. exists (b, c). split; auto. simpl.
    rewrite (plain_key fs b Hplain); auto.
    change b with (fst (b, c)). now apply in_map.
Qed.

Lemma Math_round_nearest (x : Q) :
  inject_Z (JS.Math_round x) <= x + (1 # 2)
  /\ x + (1 # 2) < inject_Z (JS.Math_round x + 1).
Proof.
  unfold JS.Math_round. split.
  - apply Qfloor_le.
  - apply Qlt_floor.
Qed.

(** C2 as stated fails: [Math.round] sends a tie to the greater integer,
    so the intensity -2.5 is counted in bucket -2, whereas rounding away
    from zero puts it in bucket -3. *)
Lemma negative_tie_rounds_up :
  ~ histogram_of round_half_away_from_zero
      [sample None None (Some (-5 # 2))]
      (Aggregated.byIntensity
         (aggregatedData [sample None None (Some (-5 # 2))])).
Proof.
  intros [_ H].
  destruct (proj1 (H (-2)%Z 1%nat)) as [E _].
  - vm_compute. now left.
  - vm_compute in E. discriminate.
Qed.

(** C2, amended: the histogram groups the records that have an intensity
    by [Math.round] of it, which is the nearest integer with a tie going
    to the greater one (the same as away from zero for an intensity that
    is not negative); it lists exactly the buckets that occur, each with
    its number of records, in ascending order of the bucket.  This holds
    when every rounded intensity is below [10^21] in magnitude. *)
Theorem byIntensity_is_round_histogram (fs : list Item.t) :
  plain_numerals fs ->
  histogram_of JS.Math_round fs (Aggregated.byIntensity (aggregatedData fs))
  /\ (forall x : Q,
         inject_Z (JS.Math_round x) <= x + (1 # 2)
         /\ x + (1 # 2) < inject_Z (JS.Math_round x + 1))
  /\ (forall x : Q,
         Qle_bool 0 x = true ->
         JS.Math_round x = round_half_away_from_zero x).
Proof.
  intros Hplain. split; [split |].
  - apply byIntensity_ascending.
  - intros b c. now apply byIntensity_rows.
  - split.
    + apply Math_round_nearest.
    + intros x Hx. unfold round_half_away_from_zero. now rewrite Hx.
Qed.

Lemma byIntensity_is_round_histogram_witness :
  plain_numerals mixed_scores
  /\ histogram_of JS.Math_round mixed_scores
       (Aggregated.byIntensity (aggregatedData mixed_scores)).
Proof.
  assert (P : plain_numerals mixed_scores)
    by (intros item x Hin E; each_sample Hin E).
  split; [exact P |].
  exact (proj1 (byIntensity_is_round_histogram mixed_scores P)).
Defined.

(** C6: on the intensities 1e21 and 1 the histogram is not strictly
    ascending.  [Math.round(1e21)] is stored under the key ["1e+21"], and
    [parseInt] reads that key back as 1, so bucket 1 is listed twice. *)
Theorem byIntensity_exponent_key_collides :
  Aggregated.byIntensity
    (aggregatedData
       [sample None None (Some (inject_Z (10 ^ 21)));
        sample None None (Some 1)])
  = [IntensityRow.mk 1 1; IntensityRow.mk 1 1]
  /\ ~ StronglySorted Z.lt
         (map IntensityRow.intensity
            (Aggregated.byIntensity
               (aggregatedData
                  [sample None None (Some (inject_Z (10 ^ 21)));
                   sample None None (Some 1)]))).
Proof.
  split.
  - vm_compute. reflexivity.
  - intros H. vm_compute in H.
    inversion H as [| a l Hs Hall]; subst.
    inversion Hall as [| b l' Hlt Hrest]; subst.
    revert Hlt. vm_compute. discriminate.
Qed.

(** X1: within the range of plain numerals the histogram is strictly
    ascending by bucket, hence without a duplicate bucket, and its counts
    add up to the number of records that have an intensity. *)
Theorem byIntensity_strict_and_total (fs : list Item.t) :
  plain_numerals fs ->
  StronglySorted Z.lt
    (map IntensityRow.intensity (Aggregated.byIntensity (aggregatedData fs)))
  /\ total_count (Aggregated.byIntensity (aggregatedData fs))
     = List.length (filter has_intensity fs).
Proof.
  intros Hplain. split.
  - apply StronglySorted_strict.
    + apply byIntensity_ascending.
    + now apply byIntensity_distinct.
  - apply byIntensity_total.
Qed.

Lemma byIntensity_strict_and_total_witness :
  plain_numerals africa_asia
  /\ StronglySorted Z.lt
       (map IntensityRow.intensity
          (Aggregated.byIntensity (aggregatedData africa_asia)))
  /\ total_count (Aggregated.byIntensity (aggregatedData africa_asia))
     = List.length (filter has_intensity africa_asia).
Proof.
  assert (P : plain_numerals africa_asia)
    by (intros item x Hin E; each_sample Hin E).
  split; [exact P |].
  exact (byIntensity_strict_and_total africa_asia P).
Defined.

(** ** Summary statistics *)

Lemma score_or_zero_eq (v : option Q) : score_or_zero v == contribution v.
Proof.
  destruct v as [x |]; simpl; [| reflexivity].
  destruct (Qeq_bool x 0) eqn:E; [| reflexivity].
  apply Qeq_bool_iff in E. now symmetry.
Qed.

Lemma reduce_total (score : Item.t -> option Q) (fs : list Item.t) (a : Q) :
  fold_left (fun acc item => acc + score_or_zero (score item)) fs a
  == a + total score fs.
Proof.
  revert a. induction fs as [| item fs IH]; intros a; simpl.
  - ring.
  - rewrite IH, score_or_zero_eq. ring.
Qed.

Lemma positive_length_nonzero (n : nat) :
  Qeq_bool (inject_Z (Z.of_nat (S n))) 0 = false.
Proof.
  reflexivity.
Qed.

Lemma average_mean_of (score : Item.t -> option Q) (fs : list Item.t) :
  mean_of score fs (average score fs).
Proof.
  destruct fs as [| item fs].
  - reflexivity.
  - unfold mean_of, average, JS.div. cbn [List.length].
    rewrite positive_length_nonzero.
    eexists. split; [reflexivity |].
    rewrite reduce_total. now rewrite Qplus_0_l.
Qed.

(** C4: each of the three means is the total of the score over the
    filtered subset, an absent score counting as 0, divided by the number
    of records in the subset; over the empty subset it is [NaN], and is
    shown as such, not as a zero. *)
Theorem averages_are_totals_over_length :
  (forall fs : list Item.t,
      mean_of Item.intensity fs (averageIntensity fs)
      /\ mean_of Item.relevance fs (averageRelevance fs)
      /\ mean_of Item.likelihood fs (averageLikelihood fs))
  /\ averageIntensity [] = JS.NaN
  /\ averageRelevance [] = JS.NaN
  /\ averageLikelihood [] = JS.NaN
  /\ shown (averageIntensity []) = "NaN"
  /\ shown (averageIntensity []) <> shown (JS.Finite 0).
Proof.
  split.
  - intros fs. repeat split; apply average_mean_of.
  - repeat split; try reflexivity. vm_compute. discriminate.
Qed.

(** ** Facet option lists *)

Section SetOfFacts.
Context {A : Type}.
Variable eqb : A -> A -> bool.
Hypothesis eqb_eq : forall a b, eqb a b = true <-> a = b.

Lemma existsb_eqb (x : A) (l : list A) :
  existsb (eqb x) l = true <-> In x l.
Proof.
  rewrite existsb_exists. split.
  - intros [y [Hy E]]. apply eqb_eq in E. now subst.
  - intros H. exists x. split; auto. now apply eqb_eq.
Qed.

Lemma set_of_snoc (l : list A) (x : A) :
  JS.set_of eqb (l ++ [x]) = JS.set_add eqb (JS.set_of eqb l) x.
Proof.
  unfold JS.set_of. now rewrite fold_left_app.
Qed.

Lemma set_of_In (l : list A) (y : A) : In y (JS.set_of eqb l) <-> In y l.
Proof.
  revert y. induction l as [| x l IH] using rev_ind; intros y.
  - reflexivity.
  - rewrite set_of_snoc, in_app_iff. unfold JS.set_add.
    destruct (existsb (eqb x) (JS.set_of eqb l)) eqn:E.
    + apply existsb_eqb, IH in E. rewrite IH. simpl.
      split; auto. intros [H | [<- | []]]; auto.
    + rewrite in_app_iff, IH. reflexivity.
Qed.

Lemma set_of_NoDup (l : list A) : NoDup (JS.set_of eqb l).
Proof.
  induction l as [| x l IH] using rev_ind.
  - constructor.
  - rewrite set_of_snoc. unfold JS.set_add.
    destruct (existsb (eqb x) (JS.set_of eqb l)) eqn:E; auto.
    assert (Hnot : ~ In x (JS.set_of eqb l)).
    { intros H. apply existsb_eqb in H. congruence. }
    apply NoDup_rev in IH.
    rewrite <- (rev_involutive (JS.set_of eqb l ++ [x])).
    apply NoDup_rev. rewrite rev_app_distr. simpl.
    constructor; auto. now rewrite <- in_rev.
Qed.

End SetOfFacts.

Lemma same_value_eq (v w : option string) :
  JS.same_value v w = true <-> v = w.
Proof.
  destruct v as [s |], w as [t |]; simpl;
    try (split; [discriminate | discriminate || congruence]).
  - rewrite String.eqb_eq. split; congruence.
  - split; reflexivity.
Qed.

Lemma filter_Boolean_In (l : list (option string)) (s : string) :
  In s (filter_Boolean l) <-> s <> "" /\ In (Some s) l.
Proof.
  unfold filter_Boolean. rewrite in_flat_map. split.
  - intros [[t |] [Hin H]]; [| destruct H].
    destruct (JS.truthy t) eqn:E; [| destruct H].
    destruct H as [<- | []]. split; auto. now apply truthy_true.
  - intros [Hs Hin]. exists (Some s). split; auto.
    apply truthy_true in Hs. rewrite Hs. now left.
Qed.

Lemma filter_Boolean_NoDup (l : list (option string)) :
  NoDup l -> NoDup (filter_Boolean l).
Proof.
  induction 1 as [| v l Hnot Hnd IH]; simpl.
  - constructor.
  - destruct v as [s |]; simpl; auto.
    destruct (JS.truthy s); simpl; auto.
    constructor; auto. intros H. apply filter_Boolean_In in H. tauto.
Qed.

Lemma string_compare_refl (s : string) : String.compare s s = Eq.
Proof.
  induction s as [| c s IH]; simpl; auto.
  unfold Ascii.compare. now rewrite N.compare_refl.
Qed.

Lemma string_lt_trans (a b c : string) :
  string_lt a b -> string_lt b c -> string_lt a c.
Proof.
  unfold string_lt. revert b c.
  induction a as [| x a IH]; intros [| y b] [| z c]; simpl;
    try discriminate; auto.
  unfold Ascii.compare.
  destruct (N.compare_spec (N_of_ascii x) (N_of_ascii y)) as [E1 | L1 | G1];
    destruct (N.compare_spec (N_of_ascii y) (N_of_ascii z)) as [E2 | L2 | G2];
    try discriminate;
    destruct (N.compare_spec (N_of_ascii x) (N_of_ascii z)) as [E3 | L3 | G3];
    try lia; auto.
  apply IH.
Qed.

Lemma default_compare_le (a b : string) :
  (JS.default_compare a b <= 0)%Z <-> a = b \/ string_lt a b.
Proof.
  unfold JS.default_compare, string_lt.
  destruct (String.compare a b) eqn:E.
  - apply String.compare_eq_iff in E. split; auto. lia.
  - split; auto. lia.
  - split; [lia |]. intros [-> | H]; [| discriminate].
    rewrite string_compare_refl in E. discriminate.
Qed.

Lemma default_compare_total (a b : string) :
  (JS.default_compare a b > 0)%Z -> (JS.default_compare b a <= 0)%Z.
Proof.
  unfold JS.default_compare. rewrite (String.compare_antisym b a).
  destruct (String.compare a b); simpl; lia.
Qed.

Lemma default_compare_trans (a b c : string) :
  (JS.default_compare a b <= 0)%Z -> (JS.default_compare b c <= 0)%Z ->
  (JS.default_compare a c <= 0)%Z.
Proof.
  rewrite !default_compare_le.
  intros [-> | H1] [-> | H2]; auto.
  right. eapply string_lt_trans; eauto.
Qed.

Lemma StronglySorted_NoDup_impl {A : Type} (R R' : A -> A -> Prop)
  (l : list A) :
  (forall a b, R a b -> a <> b -> R' a b) ->
  StronglySorted R l -> NoDup l -> StronglySorted R' l.
Proof.
  intros H. induction 1 as [| x l Hs IH Hall]; intros Hnd; constructor.
  - apply IH. now inversion Hnd.
  - inversion Hnd as [| ? ? Hnot Hnd']; subst.
    rewrite Forall_forall in *. intros y Hy.
    apply H; auto. intros ->. contradiction.
Qed.

Lemma options_of_In (pick : Item.t -> option string) (data : list Item.t)
  (s : string) :
  In s (options_of pick data) <->
  s <> "" /\ exists item, In item data /\ pick item = Some s.
Proof.
  unfold options_of.
  rewrite sort_In, filter_Boolean_In, (set_of_In _ same_value_eq), in_map_iff.
  split; intros [Hs [item H]]; split; auto; exists item; tauto.
Qed.

Lemma options_of_NoDup (pick : Item.t -> option string) (data : list Item.t) :
  NoDup (options_of pick data).
Proof.
  unfold options_of.
  eapply Permutation_NoDup; [apply Permutation_sym, sort_perm |].
  apply filter_Boolean_NoDup, (set_of_NoDup _ same_value_eq).
Qed.

Lemma options_of_sorted (pick : Item.t -> option string) (data : list Item.t) :
  StronglySorted string_lt (options_of pick data).
Proof.
  eapply StronglySorted_NoDup_impl with
    (R := fun a b => (JS.default_compare a b <= 0)%Z).
  - intros a b H Hne. apply default_compare_le in H. tauto.
  - apply sort_sorted.
    + apply default_compare_total.
    + apply default_compare_trans.
  - apply options_of_NoDup.
Qed.

Lemma facet_options_of (k : facet) (data : list Item.t) :
  facet_options k (filterOptions data) = options_of (item_facet k) data.
Proof.
  destruct k; reflexivity.
Qed.

(** C8: for each facet the option list holds exactly the distinct
    non-empty values of that field over the whole raw dataset, in strictly
    ascending lexicographic order (hence without duplicates), and it does
    not depend on the filter state. *)
Theorem filterOptions_sorted_distinct :
  forall (data : list Item.t) (k : facet),
    StronglySorted string_lt (facet_options k (filterOptions data))
    /\ NoDup (facet_options k (filterOptions data))
    /\ (forall s : string,
           In s (facet_options k (filterOptions data)) <->
           s <> "" /\ exists item, In item data /\ item_facet k item = Some s)
    /\ (forall filters : Filters.t,
           View.filterOptions (render data filters) = filterOptions data).
Proof.
  intros data k. rewrite facet_options_of.
  split; [apply options_of_sorted |].
  split; [apply options_of_NoDup |].
  split; [intros s; apply options_of_In | reflexivity].
Qed.

(** ** Loading the dataset *)

(** C3: when the server answers with its error status and payload, the
    request has failed, yet [fetchData] installs the payload as the dataset
    and clears the error: the status of the response is never looked at. *)
Theorem fetchData_error_status_replaces_data :
  forall (err : string) (st : Fetch.state),
    Fetch.failed (Fetch.Resolved (Fetch.route (inr err)))
    /\ Fetch.data (Fetch.fetchData (Fetch.Resolved (Fetch.route (inr err))) st)
       = Fetch.Text ("Error: " ++ err)
    /\ Fetch.error
         (Fetch.fetchData (Fetch.Resolved (Fetch.route (inr err))) st)
       = None
    /\ Fetch.data
         (Fetch.fetchData (Fetch.Resolved (Fetch.route (inr "timeout")))
            Fetch.initial)
       <> Fetch.data Fetch.initial.
Proof.
  intros err st. repeat split.
  - simpl. lia.
  - simpl. discriminate.
Qed.

(** X2: a rejected request, or a response whose body is not JSON, leaves
    the dataset as it was, sets the error message and clears the loading
    flag; one run of [fetchData] issues one request. *)
Theorem fetchData_caught_keeps_data :
  forall (st : Fetch.state),
    (Fetch.fetchData Fetch.Rejected st
     = Fetch.mkState (Fetch.data st) false (Some Fetch.failure_message)
         (S (Fetch.requests st)))
    /\ (forall status : nat,
           Fetch.fetchData (Fetch.Resolved (Fetch.mkResponse status None)) st
           = Fetch.mkState (Fetch.data st) false
               (Some Fetch.failure_message) (S (Fetch.requests st)))
    /\ (forall o : Fetch.outcome,
           Fetch.requests (Fetch.fetchData o st) = S (Fetch.requests st)
           /\ Fetch.loading (Fetch.fetchData o st) = false).
Proof.
  intros st.
  split; [reflexivity |]. split; [reflexivity |].
  intros o. split; [| reflexivity].
  destruct o as [| [status [body |]]]; reflexivity.
Qed.

(** ** The scenarios of the specification *)

Example scenario_A :
  aggregatedData (filteredData africa_asia Filters.initial)
  = {| Aggregated.byIntensity :=
         [IntensityRow.mk 1 1; IntensityRow.mk 3 2];
       Aggregated.byRegion :=
         [RegionRow.mk "Africa" (JS.Count 2);
          RegionRow.mk "Asia" (JS.Count 1)];
       Aggregated.byTopic := [TopicRow.mk "No Data" (JS.Count 0)] |}.
Proof. reflexivity. Qed.

Example scenario_B :
  let fd := filteredData africa_asia (Filters.mk "" "" "Asia" "" "" "") in
  fd = [sample None (Some "Asia") (Some 1)]
  /\ Aggregated.byRegion (aggregatedData fd)
     = [RegionRow.mk "Asia" (JS.Count 1)]
  /\ averageIntensity fd = JS.Finite 1
  /\ shown (averageIntensity fd) = "1.0".
Proof. repeat split. Qed.

Example scenario_C :
  let fd :=
    filteredData africa_asia (Filters.mk "" "" "Atlantis" "" "" "") in
  fd = []
  /\ Aggregated.byRegion (aggregatedData fd)
     = [RegionRow.mk "No Data" (JS.Count 0)]
  /\ averageIntensity fd = JS.NaN
  /\ shown (averageIntensity fd) = "NaN".
Proof. repeat split. Qed.

Example scenario_D :
  Fetch.fetchData Fetch.Rejected Fetch.initial
  = Fetch.mkState (Fetch.Rows []) false (Some Fetch.failure_message) 1.
Proof. reflexivity. Qed.

(** The mean divides by the number of records, not by the number of
    scores: one record with intensity 3 and one without give 1.5. *)
Example average_counts_absent_scores :
  averageIntensity
    [sample None None (Some 3); sample None None None]
  = JS.Finite (3 # 2)
  /\ shown
       (averageIntensity
          [sample None None (Some 3); sample None None None])
     = "1.5".
Proof. split; reflexivity. Qed.

(** * Further properties of the component *)

(** ** Changing the selection *)

Lemma matches_true_iff (filters : Filters.t) (item : Item.t) :
  matches filters item = true <-> forall k : facet, facet_ok k filters item.
Proof.
  unfold matches, facet_ok. rewrite !andb_true_iff, !facet_test. split.
  - intros [[[[[Ht Hs] Hr] Hp] Ho] Hc] k. destruct k; assumption.
  - intros H.
    repeat split;
      [ apply (H Topic) | apply (H Sector) | apply (H Region)
      | apply (H Pestle) | apply (H Source) | apply (H Country) ].
Qed.

Lemma selected_set_same (k : facet) (v : string) (f : Filters.t) :
  selected k (set_filter k v f) = v.
Proof. now destruct k. Qed.

Lemma selected_set_other (k k' : facet) (v : string) (f : Filters.t) :
  k' <> k -> selected k' (set_filter k v f) = selected k' f.
Proof. destruct k, k'; simpl; congruence. Qed.

Lemma facet_eq_dec (a b : facet) : {a = b} + {a <> b}.
Proof. decide equality. Defined.

Lemma filter_subseq_impl {A : Type} (p q : A -> bool) (l : list A) :
  (forall x, p x = true -> q x = true) -> subseq (filter p l) (filter q l).
Proof.
  intros H. induction l as [| x l IH]; simpl.
  - constructor.
  - destruct (p x) eqn:E.
    + rewrite (H x E). now constructor.
    + destruct (q x); [now constructor | exact IH].
Qed.

Lemma filter_andb {A : Type} (p q : A -> bool) (l : list A) :
  filter q (filter p l) = filter (fun x => p x && q x) l.
Proof.
  induction l as [| x l IH]; simpl; auto.
  destruct (p x); simpl; [destruct (q x) |]; now rewrite IH.
Qed.

Lemma filter_nonempty {A : Type} (p : A -> bool) (l : list A) :
  filter p l <> [] <-> exists x, In x l /\ p x = true.
Proof.
  split.
  - destruct (filter p l) as [| x r] eqn:E; [congruence |].
    intros _. exists x. apply filter_In. rewrite E. now left.
  - intros [x Hx] E. apply filter_In in Hx. rewrite E in Hx. destruct Hx.
Qed.

(** X3: a change of one facet stores the value under that facet and
    leaves the five other selections as they were; changes of two
    different facets commute, and the later of two changes of one facet
    wins. *)
Theorem set_filter_updates_one_facet :
  forall (k : facet) (v : string) (f : Filters.t),
    selected k (set_filter k v f) = v
    /\ (forall k', k' <> k -> selected k' (set_filter k v f) = selected k' f)
    /\ (forall k' v',
           k' <> k ->
           set_filter k v (set_filter k' v' f)
           = set_filter k' v' (set_filter k v f))
    /\ (forall v', set_filter k v (set_filter k v' f) = set_filter k v f)
    /\ set_filter k (selected k f) f = f.
Proof.
  intros k v f. split; [apply selected_set_same |].
  split; [intros k'; apply selected_set_other |].
  split; [| split].
  - intros k' v' Hne. destruct k, k'; simpl; congruence.
  - intros v'. now destruct k.
  - destruct f. now destruct k.
Qed.

Lemma matches_widens (k : facet) (v : string) (f : Filters.t)
  (item : Item.t) :
  matches (set_filter k v f) item = true ->
  matches (set_filter k "" f) item = true.
Proof.
  rewrite !matches_true_iff. intros H k'. unfold facet_ok.
  destruct (facet_eq_dec k' k) as [-> | Hne].
  - left. apply selected_set_same.
  - specialize (H k'). unfold facet_ok in H.
    now rewrite selected_set_other in * by assumption.
Qed.

(** X4: choosing a value for a facet never adds a record: the filtered
    subset under the new state is a subsequence of the filtered subset
    with that facet cleared, and so is any subset from which the chip of
    that facet is then removed. *)
Theorem selection_narrows :
  forall (data : list Item.t) (k : facet) (v : string) (f : Filters.t),
    subseq (filteredData data (set_filter k v f))
      (filteredData data (set_filter k "" f))
    /\ forall ui : Ui.t,
        subseq (filteredData data (Ui.filters ui))
          (filteredData data (Ui.filters (handleFilterChange k "" ui))).
Proof.
  intros data k v f. rewrite !filteredData_filter. split.
  - apply filter_subseq_impl. intros item. apply matches_widens.
  - intros ui. rewrite !filteredData_filter. simpl.
    apply filter_subseq_impl. intros item H.
    apply (matches_widens k (selected k (Ui.filters ui))).
    destruct (Ui.filters ui). now destruct k.
Qed.

Lemma matches_refines (k : facet) (v : string) (f : Filters.t)
  (item : Item.t) :
  selected k f = "" ->
  matches (set_filter k v f) item
  = matches f item && matches (set_filter k v Filters.initial) item.
Proof.
  intros Hk. apply eq_true_iff_eq.
  rewrite andb_true_iff, !matches_true_iff. unfold facet_ok. split.
  - intros H. split; intros k'; specialize (H k');
      destruct (facet_eq_dec k' k) as [-> | Hne].
    + now left.
    + now rewrite selected_set_other in H by assumption.
    + now rewrite selected_set_same in *.
    + left. rewrite selected_set_other by assumption. now destruct k'.
  - intros [H1 H2] k'. destruct (facet_eq_dec k' k) as [-> | Hne].
    + specialize (H2 k). now rewrite selected_set_same in *.
    + specialize (H1 k'). now rewrite selected_set_other by assumption.
Qed.

(** X5: when a facet has no selection yet, choosing a value for it gives
    the subset obtained by filtering the current filtered subset by that
    one facet alone. *)
Theorem selection_refines_current_subset :
  forall (data : list Item.t) (k : facet) (v : string) (f : Filters.t),
    selected k f = "" ->
    filteredData data (set_filter k v f)
    = filteredData (filteredData data f) (set_filter k v Filters.initial).
Proof.
  intros data k v f Hk. rewrite !filteredData_filter, filter_andb.
  apply filter_ext. intros item. now apply matches_refines.
Qed.

Lemma selection_refines_current_subset_witness :
  selected Topic (Filters.mk "" "" "Asia" "" "" "") = ""
  /\ filteredData tied_groups
       (set_filter Topic "oil" (Filters.mk "" "" "Asia" "" "" ""))
     = filteredData
         (filteredData tied_groups (Filters.mk "" "" "Asia" "" "" ""))
         (set_filter Topic "oil" Filters.initial).
Proof.
  split; [reflexivity |].
  exact (selection_refines_current_subset tied_groups Topic "oil"
           (Filters.mk "" "" "Asia" "" "" "") eq_refl).
Defined.

(** X6: filtering by one state and then by another gives the same subset
    as filtering in the other order. *)
Theorem filteredData_commutes :
  forall (data : list Item.t) (f1 f2 : Filters.t),
    filteredData (filteredData data f1) f2
    = filteredData (filteredData data f2) f1.
Proof.
  intros data f1 f2. rewrite !filteredData_filter, !filter_andb.
  apply filter_ext. intros item. apply andb_comm.
Qed.

Lemma matches_single (k : facet) (v : string) (item : Item.t) :
  v <> "" ->
  (matches (set_filter k v Filters.initial) item = true
   <-> item_facet k item = Some v).
Proof.
  intros Hv. rewrite matches_true_iff. unfold facet_ok. split.
  - intros H. specialize (H k). rewrite selected_set_same in H.
    destruct H as [H | H]; [contradiction | exact H].
  - intros H k'. destruct (facet_eq_dec k' k) as [-> | Hne].
    + right. now rewrite selected_set_same.
    + left. rewrite selected_set_other by assumption. now destruct k'.
Qed.

(** X7: the values offered for a facet are exactly the non-empty values
    that, chosen as the only selection, leave at least one record; every
    record then left has that value in the facet. *)
Theorem offered_options_select_records :
  forall (data : list Item.t) (k : facet) (v : string),
    (In v (facet_options k (filterOptions data))
     <-> v <> ""
         /\ filteredData data (set_filter k v Filters.initial) <> [])
    /\ (v <> "" ->
        Forall (fun item => item_facet k item = Some v)
          (filteredData data (set_filter k v Filters.initial))).
Proof.
  intros data k v. rewrite facet_options_of, options_of_In.
  rewrite filteredData_filter, filter_nonempty. split.
  - split; intros [Hv [item [Hin H]]]; split; auto; exists item; split; auto;
      now apply (matches_single k v item Hv).
  - intros Hv. apply Forall_forall. intros item Hin.
    apply filter_In in Hin. now apply (matches_single k v item Hv).
Qed.

(** ** The "Active Filters" card *)

Lemma active_chips_by_facet (f : Filters.t) :
  active_chips f
  = map (fun k =>
           if JS.truthy (selected k f) then Some (k, selected k f) else None)
      [Topic; Sector; Region; Pestle; Source; Country].
Proof. reflexivity. Qed.

Lemma chip_shown (f : Filters.t) (k : facet) (v : string) :
  In (Some (k, v)) (active_chips f) <-> selected k f = v /\ v <> "".
Proof.
  rewrite active_chips_by_facet, in_map_iff. split.
  - intros [k' [E _]].
    destruct (JS.truthy (selected k' f)) eqn:T; [| discriminate].
    injection E as -> <-. split; auto. now apply truthy_true.
  - intros [<- Hv]. exists k. split.
    + apply truthy_true in Hv. now rewrite Hv.
    + destruct k; simpl; tauto.
Qed.

Lemma no_active_filters_iff (f : Filters.t) :
  no_active_filters f = true <-> forall k, selected k f = "".
Proof.
  unfold no_active_filters. rewrite negb_true_iff.
  destruct f as [t s r p o c]. simpl.
  rewrite !orb_false_iff, !truthy_false. split.
  - intros [Ht [Hs [Hr [Hp [Ho [Hc _]]]]]] k. now destruct k.
  - intros H. repeat split;
      [ apply (H Topic) | apply (H Sector) | apply (H Region)
      | apply (H Pestle) | apply (H Source) | apply (H Country) ].
Qed.

(** X8: the card shows one chip for each facet that has a selection, with
    that selection, and none for the others; the text "No active filters"
    is shown exactly when there is no chip, and then the filtered subset
    is the whole dataset. *)
Theorem active_chips_show_the_selections :
  forall (f : Filters.t),
    (forall k v,
        In (Some (k, v)) (active_chips f) <-> selected k f = v /\ v <> "")
    /\ (no_active_filters f = true
        <-> forall c, In c (active_chips f) -> c = None)
    /\ (no_active_filters f = true ->
        forall data, filteredData data f = data).
Proof.
  intros f. split; [intros k v; apply chip_shown |]. split.
  - rewrite no_active_filters_iff. split.
    + intros H [[k v] |] Hin; auto.
      apply chip_shown in Hin. destruct Hin as [E Hv].
      rewrite H in E. congruence.
    + intros H k.
      destruct (String.eqb_spec (selected k f) "") as [E | E]; auto.
      assert (Hin : In (Some (k, selected k f)) (active_chips f))
        by now apply chip_shown.
      apply H in Hin. discriminate.
  - intros H data. rewrite filteredData_filter.
    rewrite (filter_ext (matches f) (fun _ => true)).
    + apply filter_true.
    + intros item. apply matches_true_iff. intros k. left.
      now apply no_active_filters_iff.
Qed.

(** X9: the button of a chip removes that chip and no other: after
    [handleFilterChange(k, '')] the chips are those of the other facets,
    unchanged, and every chart is marked as loading. *)
Theorem chip_button_removes_its_chip :
  forall (ui : Ui.t) (k : facet),
    (forall k' v,
        In (Some (k', v))
          (active_chips (Ui.filters (handleFilterChange k "" ui)))
        <-> k' <> k /\ In (Some (k', v)) (active_chips (Ui.filters ui)))
    /\ Ui.chartsLoading (handleFilterChange k "" ui)
       = Charts.mk true true true true.
Proof.
  intros ui k. split; [| reflexivity].
  intros k' v. rewrite !chip_shown. simpl.
  destruct (facet_eq_dec k' k) as [-> | Hne].
  - rewrite selected_set_same. split.
    + intros [<- Hv]. congruence.
    + intros [Hne _]. congruence.
  - rewrite selected_set_other by assumption. tauto.
Qed.

(** ** What the region and topic rows say *)

(** X10: every row of the region distribution is either the placeholder
    or a group: its key is a non-empty region other than [__proto__] that
    occurs in the filtered subset, and its value is the number of filtered
    records with that region, or, for a region that names a member of
    [Object.prototype], the text of that member followed by one digit 1
    for each such record.  No region is listed twice.  Likewise for the
    topic distribution. *)
Theorem rows_count_their_groups :
  forall fs : list Item.t,
    Forall
      (fun r =>
         r = RegionRow.mk "No Data" (JS.Count 0)
         \/ (RegionRow.name r <> "" /\ RegionRow.name r <> "__proto__"
             /\ (0 < group_size Item.region (RegionRow.name r) fs)%nat
             /\ RegionRow.value r
                = group_value (RegionRow.name r)
                    (group_size Item.region (RegionRow.name r) fs)))
      (Aggregated.byRegion (aggregatedData fs))
    /\ NoDup (map RegionRow.name (Aggregated.byRegion (aggregatedData fs)))
    /\ Forall
         (fun r =>
            r = TopicRow.mk "No Data" (JS.Count 0)
            \/ (TopicRow.topic r <> "" /\ TopicRow.topic r <> "__proto__"
                /\ (0 < group_size Item.topic (TopicRow.topic r) fs)%nat
                /\ TopicRow.count r
                   = group_value (TopicRow.topic r)
                       (group_size Item.topic (TopicRow.topic r) fs)))
         (Aggregated.byTopic (aggregatedData fs))
    /\ NoDup (map TopicRow.topic (Aggregated.byTopic (aggregatedData fs))).
Proof.
  intros fs. unfold aggregatedData. cbv beta zeta.
  cbn [Aggregated.byRegion Aggregated.byTopic].
  split; [| split; [| split]].
  - apply Forall_forall. intros r.
    apply (top_rows (fun '(name, value) => RegionRow.mk name value)
             RegionRow.name RegionRow.value); now intros [k c].
  - apply (top_keys_NoDup (fun '(name, value) => RegionRow.mk name value)
             RegionRow.name); now intros [k c].
  - apply Forall_forall. intros r.
    apply (top_rows (fun '(topic, count) => TopicRow.mk topic count)
             TopicRow.topic TopicRow.count); now intros [k c].
  - apply (top_keys_NoDup (fun '(topic, count) => TopicRow.mk topic count)
             TopicRow.topic); now intros [k c].
Qed.

(** Two records of the region "toString": the row holds the text of the
    inherited function with one digit 1 for each record. *)
Example inherited_region_counts_in_text :
  Aggregated.byRegion
    (aggregatedData
       [sample None (Some "toString") None;
        sample None (Some "toString") None])
  = [RegionRow.mk "toString"
       (JS.Text "function toString() { [native code] }11")].
Proof. reflexivity. Qed.

(** A record of the region [__proto__] leaves no row. *)
Example proto_region_leaves_no_row :
  Aggregated.byRegion
    (aggregatedData [sample None (Some "__proto__") None])
  = [RegionRow.mk "No Data" (JS.Count 0)].
Proof. reflexivity. Qed.

(** X11: while no region names a member of [Object.prototype], a region
    that has records but no row in the region distribution was cut by the
    limit: the distribution then has ten rows, each holding a number at
    least as large as the number of records of that region. *)
Theorem unlisted_region_is_not_larger :
  forall (fs : list Item.t) (k : string),
    no_inherited_keys Item.region fs ->
    k <> "" ->
    (0 < group_size Item.region k fs)%nat ->
    ~ In k (map RegionRow.name (Aggregated.byRegion (aggregatedData fs))) ->
    List.length (Aggregated.byRegion (aggregatedData fs)) = 10%nat
    /\ Forall
         (fun r =>
            exists n, RegionRow.value r = JS.Count n
                      /\ (group_size Item.region k fs <= n)%nat)
         (Aggregated.byRegion (aggregatedData fs)).
Proof.
  intros fs k H. rewrite (byRegion_plain fs H).
  apply (shown_rows_cut region_row RegionRow.name); reflexivity.
Qed.

Lemma unlisted_region_is_not_larger_witness :
  no_inherited_keys Item.region eleven_groups
  /\ "j" <> ""
  /\ (0 < group_size Item.region "j" eleven_groups)%nat
  /\ ~ In "j"
         (map RegionRow.name
            (Aggregated.byRegion (aggregatedData eleven_groups)))
  /\ List.length (Aggregated.byRegion (aggregatedData eleven_groups))
     = 10%nat
  /\ Forall
       (fun r =>
          exists n, RegionRow.value r = JS.Count n
                    /\ (group_size Item.region "j" eleven_groups <= n)%nat)
       (Aggregated.byRegion (aggregatedData eleven_groups)).
Proof.
  assert (H0 : no_inherited_keys Item.region eleven_groups).
  { intros item key Hin E. unfold eleven_groups in Hin.
    apply in_map_iff in Hin. destruct Hin as [x [<- Hx]].
    simpl in E. injection E as <-. simpl in Hx.
    repeat (destruct Hx as [<- | Hx]; [reflexivity |]). destruct Hx. }
  assert (H1 : "j" <> "") by discriminate.
  assert (H2 : (0 < group_size Item.region "j" eleven_groups)%nat)
    by (vm_compute; lia).
  assert (H3 : ~ In "j"
                   (map RegionRow.name
                      (Aggregated.byRegion (aggregatedData eleven_groups)))).
  { vm_compute. intuition discriminate. }
  split; [exact H0 |]. split; [exact H1 |].
  split; [exact H2 |]. split; [exact H3 |].
  exact (unlisted_region_is_not_larger eleven_groups "j" H0 H1 H2 H3).
Defined.

(** X12: the same for a topic without a row in the topic distribution,
    while no topic names a member of [Object.prototype]. *)
Theorem unlisted_topic_is_not_larger :
  forall (fs : list Item.t) (k : string),
    no_inherited_keys Item.topic fs ->
    k <> "" ->
    (0 < group_size Item.topic k fs)%nat ->
    ~ In k (map TopicRow.topic (Aggregated.byTopic (aggregatedData fs))) ->
    List.length (Aggregated.byTopic (aggregatedData fs)) = 10%nat
    /\ Forall
         (fun r =>
            exists n, TopicRow.count r = JS.Count n
                      /\ (group_size Item.topic k fs <= n)%nat)
         (Aggregated.byTopic (aggregatedData fs)).
Proof.
  intros fs k H. rewrite (byTopic_plain fs H).
  apply (shown_rows_cut topic_row TopicRow.topic); reflexivity.
Qed.

Lemma unlisted_topic_is_not_larger_witness :
  no_inherited_keys Item.topic eleven_groups
  /\ "j" <> ""
  /\ (0 < group_size Item.topic "j" eleven_groups)%nat
  /\ ~ In "j"
         (map TopicRow.topic
            (Aggregated.byTopic (aggregatedData eleven_groups)))
  /\ List.length (Aggregated.byTopic (aggregatedData eleven_groups))
     = 10%nat
  /\ Forall
       (fun r =>
          exists n, TopicRow.count r = JS.Count n
                    /\ (group_size Item.topic "j" eleven_groups <= n)%nat)
       (Aggregated.byTopic (aggregatedData eleven_groups)).
Proof.
  assert (H0 : no_inherited_keys Item.topic eleven_groups).
  { intros item key Hin E. unfold eleven_groups in Hin.
    apply in_map_iff in Hin. destruct Hin as [x [<- Hx]].
    simpl in E. injection E as <-. simpl in Hx.
    repeat (destruct Hx as [<- | Hx]; [reflexivity |]). destruct Hx. }
  assert (H1 : "j" <> "") by discriminate.
  assert (H2 : (0 < group_size Item.topic "j" eleven_groups)%nat)
    by (vm_compute; lia).
  assert (H3 : ~ In "j"
                   (map TopicRow.topic
                      (Aggregated.byTopic (aggregatedData eleven_groups)))).
  { vm_compute. intuition discriminate. }
  split; [exact H0 |]. split; [exact H1 |].
  split; [exact H2 |]. split; [exact H3 |].
  exact (unlisted_topic_is_not_larger eleven_groups "j" H0 H1 H2 H3).
Defined.

(** ** Empty charts *)

Lemma byIntensity_nil_iff (fs : list Item.t) :
  Aggregated.byIntensity (aggregatedData fs) = []
  <-> Forall (fun item => Item.intensity item = None) fs.
Proof.
  rewrite Forall_forall.
  assert (K : forall item,
             intensity_key item = None <-> Item.intensity item = None).
  { intros item. unfold intensity_key.
    destruct (Item.intensity item); simpl; split; congruence. }
  split.
  - intros H item Hin. apply K. revert item Hin.
    apply (tally_nil_iff Z.eqb Z.eqb_eq).
    pose proof (byIntensity_perm fs) as P. rewrite H in P.
    apply Permutation_nil in P.
    destruct (tally Z.eqb intensity_key fs); [auto | discriminate].
  - intros H.
    assert (T : tally Z.eqb intensity_key fs = []).
    { apply (tally_nil_iff Z.eqb Z.eqb_eq).
      intros item Hin. now apply K, H. }
    pose proof (byIntensity_perm fs) as P. rewrite T in P. simpl in P.
    now apply Permutation_sym, Permutation_nil in P.
Qed.

(** X13: the histogram is empty exactly when no filtered record has an
    intensity (it has no placeholder); the region distribution is the
    placeholder exactly when every filtered record has no region, an empty
    one or the region [__proto__], and likewise the topic distribution. *)
Theorem charts_without_groups :
  forall fs : list Item.t,
    (Aggregated.byIntensity (aggregatedData fs) = []
     <-> Forall (fun item => Item.intensity item = None) fs)
    /\ (Aggregated.byRegion (aggregatedData fs)
        = [RegionRow.mk "No Data" (JS.Count 0)]
        <-> Forall (uncounted Item.region) fs)
    /\ (Aggregated.byTopic (aggregatedData fs)
        = [TopicRow.mk "No Data" (JS.Count 0)]
        <-> Forall (uncounted Item.topic) fs).
Proof.
  intros fs. split; [apply byIntensity_nil_iff |].
  unfold aggregatedData. cbv beta zeta.
  cbn [Aggregated.byRegion Aggregated.byTopic]. split.
  - apply (top_placeholder_iff
             (fun '(name, value) => RegionRow.mk name value)
             RegionRow.name RegionRow.value);
      [now intros [k c] | now intros [k c] | reflexivity].
  - apply (top_placeholder_iff
             (fun '(topic, count) => TopicRow.mk topic count)
             TopicRow.topic TopicRow.count);
      [now intros [k c] | now intros [k c] | reflexivity].
Qed.

(** ** A selection on the grouped facet *)

Lemma filtered_facet (data : list Item.t) (f : Filters.t) (k : facet)
  (item : Item.t) :
  selected k f <> "" -> In item (filteredData data f) ->
  item_facet k item = Some (selected k f).
Proof.
  intros Hk Hin. rewrite filteredData_filter in Hin.
  apply filter_In in Hin. destruct Hin as [_ Hm].
  destruct (proj1 (matches_true_iff f item) Hm k) as [E | E]; congruence.
Qed.

(** X14: while a region is selected that does not name a member of
    [Object.prototype], the region distribution of the filtered subset is
    the placeholder when the subset is empty, and otherwise the single row
    of that region with the size of the subset; likewise the topic
    distribution while such a topic is selected. *)
Theorem selected_group_is_the_only_row :
  forall (data : list Item.t) (f : Filters.t),
    (Filters.region f <> "" ->
     JS.inherited_text (Filters.region f) = None ->
     Aggregated.byRegion (aggregatedData (filteredData data f))
     = match filteredData data f with
       | [] => [RegionRow.mk "No Data" (JS.Count 0)]
       | _ :: _ =>
           [RegionRow.mk (Filters.region f)
              (JS.Count (List.length (filteredData data f)))]
       end)
    /\ (Filters.topic f <> "" ->
        JS.inherited_text (Filters.topic f) = None ->
        Aggregated.byTopic (aggregatedData (filteredData data f))
        = match filteredData data f with
          | [] => [TopicRow.mk "No Data" (JS.Count 0)]
          | _ :: _ =>
              [TopicRow.mk (Filters.topic f)
                 (JS.Count (List.length (filteredData data f)))]
          end).
Proof.
  intros data f. split; intros Hsel Hplain.
  - assert (All : forall item,
               In item (filteredData data f) ->
               Item.region item = Some (Filters.region f))
      by (intros item Hin; exact (filtered_facet data f Region item Hsel Hin)).
    rewrite byRegion_plain.
    + now apply (shown_rows_one_group region_row RegionRow.value).
    + intros item key Hin E. rewrite (All item Hin) in E.
      injection E as <-. exact Hplain.
  - assert (All : forall item,
               In item (filteredData data f) ->
               Item.topic item = Some (Filters.topic f))
      by (intros item Hin; exact (filtered_facet data f Topic item Hsel Hin)).
    rewrite byTopic_plain.
    + now apply (shown_rows_one_group topic_row TopicRow.count).
    + intros item key Hin E. rewrite (All item Hin) in E.
      injection E as <-. exact Hplain.
Qed.

Lemma selected_group_is_the_only_row_witness :
  Aggregated.byRegion
    (aggregatedData
       (filteredData africa_asia (Filters.mk "" "" "Africa" "" "" "")))
  = [RegionRow.mk "Africa" (JS.Count 2)]
  /\ Aggregated.byTopic
       (aggregatedData
          (filteredData tied_groups (Filters.mk "oil" "" "" "" "" "")))
     = [TopicRow.mk "oil" (JS.Count 2)].
Proof.
  split.
  - apply (proj1 (selected_group_is_the_only_row africa_asia
                    (Filters.mk "" "" "Africa" "" "" "")));
      [discriminate | reflexivity].
  - apply (proj2 (selected_group_is_the_only_row tied_groups
                    (Filters.mk "oil" "" "" "" "" "")));
      [discriminate | reflexivity].
Defined.

(** ** The colours of the pie slices *)

Lemma cell_fills_prefix {A : Type} (rows : list A) :
  (List.length rows <= 10)%nat ->
  cell_fills rows = firstn (List.length rows) (map Some COLORS).
Proof.
  unfold cell_fills. generalize (List.length rows) as n. intros n Hn.
  do 11 (destruct n as [| n]; [reflexivity |]). lia.
Qed.

Lemma COLORS_distinct : NoDup (map Some COLORS).
Proof.
  unfold COLORS. simpl.
  repeat (constructor; [simpl; intuition discriminate |]). constructor.
Qed.

(** X15: the pie chart gives every slice of the region distribution a
    colour of the palette, and no two slices the same colour. *)
Theorem pie_slices_have_distinct_colours :
  forall fs : list Item.t,
    List.length (cell_fills (Aggregated.byRegion (aggregatedData fs)))
    = List.length (Aggregated.byRegion (aggregatedData fs))
    /\ Forall (fun fill => exists colour, fill = Some colour /\ In colour COLORS)
         (cell_fills (Aggregated.byRegion (aggregatedData fs)))
    /\ NoDup (cell_fills (Aggregated.byRegion (aggregatedData fs))).
Proof.
  intros fs. split.
  - unfold cell_fills. now rewrite length_map, length_seq.
  - rewrite (cell_fills_prefix _ (byRegion_length fs)). split.
    + apply Forall_forall. intros fill Hin. apply firstn_In in Hin.
      apply in_map_iff in Hin. destruct Hin as [colour [<- Hc]].
      now exists colour.
    + apply NoDup_firstn, COLORS_distinct.
Qed.

(** ** Loading the dataset: success *)

(** [fetchData] never looks at the status of the response: two
    responses with the same body leave the same state; and when the route
    of the server finds the documents, they become the dataset, any
    earlier error is cleared and loading ends. *)
Theorem fetchData_ignores_status :
  (forall (s1 s2 : nat) (body : option Fetch.payload) (st : Fetch.state),
      Fetch.fetchData (Fetch.Resolved (Fetch.mkResponse s1 body)) st
      = Fetch.fetchData (Fetch.Resolved (Fetch.mkResponse s2 body)) st)
  /\ (forall (documents : list Item.t) (st : Fetch.state),
         Fetch.fetchData (Fetch.Resolved (Fetch.route (inl documents))) st
         = Fetch.mkState (Fetch.Rows documents) false None
             (S (Fetch.requests st))).
Proof.
  split; reflexivity.
Qed.

(** ** The origin check of the server *)

Lemma indexOf_allowed (env : option string) (s : string) :
  (Cors.indexOf (Cors.allowedOrigins env) (Some s) =? -1)%Z = false
  <-> s = Cors.reactAppApiUrl env \/ s = "http://localhost:5174".
Proof.
  unfold Cors.indexOf, Cors.allowedOrigins. cbn [Cors.indexOf_from].
  destruct (String.eqb_spec (Cors.reactAppApiUrl env) s) as [E1 | E1].
  - split; auto.
  - destruct (String.eqb_spec "http://localhost:5174" s) as [E2 | E2].
    + split; auto.
    + split; [discriminate |]. intros [H | H]; congruence.
Qed.

(** X17: the origin check admits a request exactly when it carries no
    origin (or an empty one), or its origin is the configured client URL,
    or the local development URL; the configured URL is the environment
    variable, or the default when that is unset or empty. *)
Theorem cors_admits_listed_origins :
  forall (env : option string) (o : option string),
    (Cors.origin env o = Cors.Allowed
     <-> o = None \/ o = Some ""
         \/ o = Some (Cors.reactAppApiUrl env)
         \/ o = Some "http://localhost:5174")
    /\ (Cors.origin env o <> Cors.Allowed ->
        Cors.origin env o = Cors.Refused "Not allowed by CORS")
    /\ (Cors.reactAppApiUrl env
        = match env with
          | None | Some "" => "https://dataviztop.netlify.app"
          | Some url => url
          end).
Proof.
  intros env o. split; [| split].
  - unfold Cors.origin. destruct o as [s |].
    + pose proof (indexOf_allowed env s) as I.
      destruct (Cors.indexOf (Cors.allowedOrigins env) (Some s) =? -1)%Z.
      * simpl. destruct (JS.truthy s) eqn:T; simpl.
        -- apply truthy_true in T. split; [discriminate |].
           intros [H | [H | [H | H]]]; try congruence;
             injection H as ->; exfalso;
             assert (true = false) by (apply I; auto); discriminate.
        -- apply truthy_false in T. subst. split; auto.
      * simpl. split; auto. intros _.
        destruct (proj1 I eq_refl) as [-> | ->]; auto.
    + simpl. split; auto.
  - unfold Cors.origin.
    destruct (negb _ || negb _); [congruence | reflexivity].
  - unfold Cors.reactAppApiUrl, Cors.or_default.
    destruct env as [[| c s] |]; reflexivity.
Qed.

(** ** The rows add up *)

(** X18: while no region names a member of [Object.prototype] and the
    region distribution has fewer than ten rows, no group was cut: its
    values are numbers that add up to the number of filtered records with
    a non-empty region; likewise for the topic distribution. *)
Theorem uncut_rows_add_up :
  forall fs : list Item.t,
    (no_inherited_keys Item.region fs ->
     (List.length (Aggregated.byRegion (aggregatedData fs)) < 10)%nat ->
     exists ns,
       counts_are RegionRow.value (Aggregated.byRegion (aggregatedData fs)) ns
       /\ list_sum ns
          = List.length
              (filter (fun item => JS.truthy_field (Item.region item)) fs))
    /\ (no_inherited_keys Item.topic fs ->
        (List.length (Aggregated.byTopic (aggregatedData fs)) < 10)%nat ->
        exists ns,
          counts_are TopicRow.count (Aggregated.byTopic (aggregatedData fs)) ns
          /\ list_sum ns
             = List.length
                 (filter (fun item => JS.truthy_field (Item.topic item)) fs)).
Proof.
  intros fs. split; intros H.
  - rewrite (byRegion_plain fs H). intros Hlen.
    eexists. split.
    + apply (shown_rows_counts region_row RegionRow.name); reflexivity.
    + apply (shown_rows_total region_row); [reflexivity .. | exact Hlen].
  - rewrite (byTopic_plain fs H). intros Hlen.
    eexists. split.
    + apply (shown_rows_counts topic_row TopicRow.topic); reflexivity.
    + apply (shown_rows_total topic_row); [reflexivity .. | exact Hlen].
Qed.

Lemma uncut_rows_add_up_witness :
  no_inherited_keys Item.region tied_groups
  /\ (List.length (Aggregated.byRegion (aggregatedData tied_groups))
      < 10)%nat
  /\ exists ns,
       counts_are RegionRow.value
         (Aggregated.byRegion (aggregatedData tied_groups)) ns
       /\ list_sum ns
          = List.length
              (filter (fun item => JS.truthy_field (Item.region item))
                 tied_groups).
Proof.
  assert (H0 : no_inherited_keys Item.region tied_groups)
    by (intros item key Hin E; each_sample Hin E).
  assert (H : (List.length (Aggregated.byRegion (aggregatedData tied_groups))
               < 10)%nat) by (vm_compute; lia).
  split; [exact H0 |]. split; [exact H |].
  exact (proj1 (uncut_rows_add_up tied_groups) H0 H).
Defined.
